(** * ankura: tokenizers, cache wrappers and the anchor server

    A shallow embedding of [ankura/tokenize.py] and [server/server.py].

    - [Tokenize] embeds the tokenizers [split], [simple], [news] and
      [html], together with the fragment of Python's [re] engine that the
      six patterns of the module need.
    - [Util] holds the helpers of [ankura.util] that the server imports
      ([tuplize], [memoize], [pickle_cache]).
    - [Server] embeds [convert_anchor], [reindex_anchors],
      [tokenify_anchors], [topic_request], [get_base_anchors] and
      [get_vocab].
    - [Cached] has [get_newsgroups] and [default_anchors] under their two
      decorators, and [Demo] is a small instance on which the server runs.

    Python text is a sequence of Unicode code points; a [str] is therefore
    a list of code points, each an [N]. *)

From Stdlib Require Import NArith ZArith String Ascii.
From stdpp Require Import base tactics option list numbers sorting gmap.

Open Scope N_scope.

(** ** Python strings *)

Definition codepoint := N.
Definition str := list codepoint.

(** A string literal of the development, read as Latin-1 text. *)
Definition py (s : string) : str := map N_of_ascii (list_ascii_of_string s).

(** [Py_UNICODE_ISSPACE]: the characters that [str.split()] and
    [str.strip()] treat as whitespace. *)
Definition isspace (c : codepoint) : bool :=
  ((9 <=? c) && (c <=? 13)) || ((28 <=? c) && (c <=? 32))
  || (c =? 133) || (c =? 160) || (c =? 5760)
  || ((8192 <=? c) && (c <=? 8202))
  || (c =? 8232) || (c =? 8233) || (c =? 8239) || (c =? 8287)
  || (c =? 12288).

(** The class [a-z] of the pattern [[^a-z]]. *)
Definition is_az (c : codepoint) : bool := (97 <=? c) && (c <=? 122).

Definition LF : codepoint := 10.
Definition SP : codepoint := 32.

Fixpoint drop_while {A} (p : A → bool) (l : list A) : list A :=
  match l with
  | [] => []
  | x :: l' => if p x then drop_while p l' else l
  end.

(** [s.lstrip()], [s.rstrip()] and [s.strip()]. *)
Definition lstrip (s : str) : str := drop_while isspace s.
Definition rstrip (s : str) : str := rev (drop_while isspace (rev s)).
Definition strip (s : str) : str := rstrip (lstrip s).

(** [s.split()]: the maximal runs of non-whitespace characters, in order.
    [w] is the word being read. *)
Definition flush (w : str) : list str := if w is [] then [] else [w].

Fixpoint split_acc (w : str) (s : str) : list str :=
  match s with
  | [] => flush w
  | c :: s' =>
      if isspace c then flush w ++ split_acc [] s'
      else split_acc (w ++ [c]) s'
  end.

Definition str_split (s : str) : list str := split_acc [] s.

(** [sep.join(l)]. *)
Fixpoint str_join (sep : str) (l : list str) : str :=
  match l with
  | [] => []
  | [t] => t
  | t :: l' => t ++ sep ++ str_join sep l'
  end.

(** ** Readable text sources

    A file object opened for reading is modelled by the text it has not
    delivered yet. [read] delivers all of it; [readline] delivers the text
    up to and including the first line feed, or everything when there is
    none, and the empty string at the end of the input. *)

Definition TextIO := str.

Definition StringIO (text : str) : TextIO := text.

Definition read (f : TextIO) : str * TextIO := (f, []).

Fixpoint readline (f : TextIO) : str * TextIO :=
  match f with
  | [] => ([], [])
  | c :: f' =>
      if c =? LF then ([c], f')
      else let '(line, rest) := readline f' in (c :: line, rest)
  end.

(** The lines of a text, each with its line feed: what successive calls
    of [readline] deliver. *)
Fixpoint lines_acc (cur : str) (s : str) : list str :=
  match s with
  | [] => flush cur
  | c :: s' =>
      if c =? LF then (cur ++ [c]) :: lines_acc [] s'
      else lines_acc (cur ++ [c]) s'
  end.

Definition splitlines (s : str) : list str := lines_acc [] s.

(** ** The fragment of Python's [re] used by the tokenizers

    [re] is a backtracking engine: alternatives are tried left to right, a
    lazy quantifier tries the shortest repetition first, and the first
    complete match wins. The matcher below is written in
    continuation-passing style, which gives exactly this search order: the
    continuation [k] stands for the rest of the pattern and receives the
    unmatched text and the groups captured so far. *)

Module Re.

Inductive regex :=
| Lit (ci : bool) (t : str)        (* a literal text; [ci]: cased letters
                                      under [(?i)] *)
| NotRange (lo hi : codepoint)     (* [[^lo-hi]] *)
| LazyDots                         (* [.*?] under [(?s)] *)
| Cat (r1 r2 : regex)              (* [r1r2] *)
| Alt (r1 r2 : regex)              (* [r1|r2] *)
| Opt (r : regex)                  (* [r?], greedy *)
| Group (n : nat) (r : regex)      (* the [n]-th capturing group *)
| Backref (n : nat).               (* [\n] *)

Definition captures := list (nat * str).

Definition get_group (n : nat) (g : captures) : option str :=
  snd <$> List.find (λ e, Nat.eqb (fst e) n) g.

Definition set_group (n : nat) (t : str) (g : captures) : captures :=
  (n, t) :: g.

Section engine.

(** [ci_eq a b]: the engine's comparison of two characters under
    [re.IGNORECASE], a table of the Unicode database. A back-reference is
    compared with the captured text by the same table; the engine's own
    comparison there may differ for letters with more than two cased
    forms. *)
Variable ci_eq : codepoint → codepoint → bool.

(** The text [t] read off the front of [s], compared with [ci_eq] when
    [ci] is set. *)
Fixpoint strip_prefix (ci : bool) (t s : str) : option str :=
  match t, s with
  | [], _ => Some s
  | _ :: _, [] => None
  | a :: t', b :: s' =>
      if (if ci then ci_eq a b else a =? b) then strip_prefix ci t' s'
      else None
  end.

Definition cont := str → captures → option str.

(** [rmatch ci r s g k]: match [r] at the front of [s] and continue with
    [k]; the result is the text left after the whole match. [ci] is the
    flag [(?i)] of the pattern, which back-references obey. *)
Fixpoint rmatch (ci : bool) (r : regex) (s : str) (g : captures)
    (k : cont) : option str :=
  match r with
  | Lit c t =>
      match strip_prefix c t s with
      | Some s' => k s' g
      | None => None
      end
  | NotRange lo hi =>
      match s with
      | c' :: s' => if (lo <=? c') && (c' <=? hi) then None else k s' g
      | [] => None
      end
  | LazyDots =>
      (fix shortest (s : str) : option str :=
         match k s g with
         | Some x => Some x
         | None =>
             match s with
             | [] => None
             | _ :: s' => shortest s'
             end
         end) s
  | Cat r1 r2 => rmatch ci r1 s g (λ s1 g1, rmatch ci r2 s1 g1 k)
  | Alt r1 r2 =>
      match rmatch ci r1 s g k with
      | Some x => Some x
      | None => rmatch ci r2 s g k
      end
  | Opt r1 =>
      match rmatch ci r1 s g k with
      | Some x => Some x
      | None => k s g
      end
  | Group n r1 =>
      rmatch ci r1 s g
        (λ s1 g1, k s1 (set_group n (take (length s - length s1) s) g1))
  | Backref n =>
      match get_group n g with
      | Some t =>
          match strip_prefix ci t s with
          | Some s' => k s' g
          | None => None
          end
      | None => None
      end
  end.

(** [pattern.match] at the front of [s]: the text after the match. *)
Definition re_match (ci : bool) (r : regex) (s : str) : option str :=
  rmatch ci r s [] (λ s' _, Some s').

(** [re.sub(r, repl, s)] for a replacement without group references:
    the text is scanned from the left; where the pattern matches, the
    match is replaced and the scan resumes after it. [skip] counts the
    characters of the current match still to be passed over. No pattern
    of the module matches the empty string
    ([tokenizer_patterns_consume]), so an empty match is treated as no
    match. *)
Fixpoint sub_from (ci : bool) (r : regex) (repl : str) (skip : nat)
    (s : str) : str :=
  match s with
  | [] => []
  | c :: s' =>
      match skip with
      | S n => sub_from ci r repl n s'
      | O =>
          match re_match ci r s with
          | Some rest =>
              match (length s - length rest)%nat with
              | O => c :: sub_from ci r repl 0 s'
              | S n => repl ++ sub_from ci r repl n s'
              end
          | None => c :: sub_from ci r repl 0 s'
          end
      end
  end.

Definition re_sub (ci : bool) (r : regex) (repl : str) (s : str) : str :=
  sub_from ci r repl 0 s.

End engine.

End Re.

(** ** [ankura/tokenize.py] *)

Module Tokenize.

Import Re.

(** [r'[^a-z]'] *)
Definition not_az : regex := NotRange 97 122.

(** [r'(?is)<(script|style).*?>.*?(</\1>)']. The characters [<], [/] and
    [>] have no case and match exactly. *)
Definition script_or_style : regex :=
  Cat (Lit false (py "<"))
    (Cat (Group 1 (Alt (Lit true (py "script")) (Lit true (py "style"))))
       (Cat LazyDots
          (Cat (Lit false (py ">"))
             (Cat LazyDots
                (Group 2
                   (Cat (Lit false (py "</"))
                      (Cat (Backref 1) (Lit false (py ">"))))))))).

(** [r'(?s)<!--(.*?)-->[\n]?'] *)
Definition comment : regex :=
  Cat (Lit false (py "<!--"))
    (Cat (Group 1 LazyDots)
       (Cat (Lit false (py "-->")) (Opt (Lit false [LF])))).

(** [r'(?s)<.*?>'] *)
Definition tag : regex :=
  Cat (Lit false (py "<")) (Cat LazyDots (Lit false (py ">"))).

(** [r'&nbsp;'] *)
Definition nbsp : regex := Lit false (py "&nbsp;").

(** [r'  '] *)
Definition two_spaces : regex := Lit false [SP; SP].

Section tokenizers.

(** [str_lower s] is Python's [s.lower()], the lower-casing of the
    Unicode database; [ci_eq] is the comparison of [re.IGNORECASE]. *)
Variable str_lower : str → str.
Variable ci_eq : codepoint → codepoint → bool.

(** A tokenizer takes a readable source to its tokens. The optional
    parameter of each tokenizer ([splitter], [tokenizer]) comes first
    here, so that [simple split] and [news (simple split)] are
    tokenizers again. *)
Definition Tokenizer := TextIO → list str.

(** [split(doc_file)] *)
Definition split : Tokenizer :=
  λ doc_file, str_split (fst (read doc_file)).

(** [simple(doc_file, splitter=split)] *)
Definition simple (splitter : Tokenizer) : Tokenizer :=
  λ doc_file,
    let tokens := splitter doc_file in
    let tokens := map str_lower tokens in
    let tokens := map (re_sub ci_eq false not_az []) tokens in
    let tokens := filter (λ token, token ≠ []) tokens in
    tokens.

(** The loop of [news]:
    [line = readline(); while line.strip(): line = readline()],
    returning the source as the loop leaves it. Each turn of the loop
    that goes on has read at least one character, so [fuel] turns are
    enough for a source of at most [fuel] characters
    ([skip_header_unfold]). *)
Fixpoint skip_header_loop (fuel : nat) (doc_file : TextIO) : TextIO :=
  let '(line, doc_file) := readline doc_file in
  match strip line with
  | [] => doc_file
  | _ :: _ =>
      match fuel with
      | O => doc_file
      | S fuel => skip_header_loop fuel doc_file
      end
  end.

Definition skip_header (doc_file : TextIO) : TextIO :=
  skip_header_loop (length doc_file) doc_file.

(** [news(doc_file, tokenizer=simple)]. The handler of the source only
    prints the source and raises the exception again. *)
Definition news (tokenizer : Tokenizer) : Tokenizer :=
  λ doc_file, tokenizer (skip_header doc_file).

(** [html(doc_file, tokenizer=simple)] *)
Definition html (tokenizer : Tokenizer) : Tokenizer :=
  λ doc_file,
    let text := strip (fst (read doc_file)) in
    let text := re_sub ci_eq true script_or_style [] text in
    let text := re_sub ci_eq false comment [] text in
    let text := re_sub ci_eq false tag [SP] text in
    let text := re_sub ci_eq false nbsp [SP] text in
    let text := re_sub ci_eq false two_spaces [SP] text in
    let text := re_sub ci_eq false two_spaces [SP] text in
    let text := strip text in
    tokenizer (StringIO text).

End tokenizers.

(** Lower-casing and case-insensitive comparison on ASCII text, where
    they agree with Python's: the instance used to run the tokenizers on
    concrete ASCII documents. *)
Definition ascii_lower_char (c : codepoint) : codepoint :=
  if (65 <=? c) && (c <=? 90) then c + 32 else c.
Definition ascii_lower (s : str) : str := map ascii_lower_char s.
Definition ascii_ci_eq (a b : codepoint) : bool :=
  ascii_lower_char a =? ascii_lower_char b.

Definition simple_a := simple ascii_lower ascii_ci_eq.
Definition html_a := html ascii_ci_eq.

End Tokenize.

(** ** Python values and exceptions

    The values that reach the anchor functions of the server: what
    [json.loads] makes of an anchor specification (integers, strings and
    arrays), and the tuples that [tuplize] makes of arrays. The other
    values of JSON (fractions, booleans, [null], objects) are not anchors
    and are left out. *)

#[warnings="-register-all"] Inductive pyval :=
| PInt (i : Z)
| PStr (s : str)
| PList (l : list pyval)
| PTuple (l : list pyval).

Inductive exn :=
| ValueError        (* [list.index]: the value is not in the list *)
| IndexError        (* a list index out of range *)
| TypeError         (* an operand of the wrong type *)
| JSONDecodeError.  (* [json.loads] *)

Inductive result (A : Type) :=
| Ok (a : A)
| Raise (e : exn).
Arguments Ok {A} a.
Arguments Raise {A} e.

#[global] Instance result_ret : MRet result := λ A, Ok.
#[global] Instance result_bind : MBind result :=
  λ A B f m, match m with Ok a => f a | Raise e => Raise e end.
#[global] Instance result_fmap : FMap result :=
  λ A B f m, match m with Ok a => Ok (f a) | Raise e => Raise e end.

(** ** [ankura.util] *)

Module Util.

(** Modelled from the spec: [ankura.util.tuplize] is not among the
    sources. The spec has a mutable container "normalized to an immutable
    ordered form" before it is used as a cache key, and the conversion of
    anchors "applied element-wise without flattening groups": a list or
    tuple becomes the tuple of its converted elements, and [conversion]
    is applied to every other value. *)
Fixpoint tuplize (conversion : pyval → result pyval) (obj : pyval)
    : result pyval :=
  match obj with
  | PList l | PTuple l => PTuple <$> mapM (tuplize conversion) l
  | _ => conversion obj
  end.

(** ** The two cache levels

    The process has one dictionary per memoized function, kept here in
    one map keyed by the function's name and the argument tuple, and one
    durable store of named blobs. A blob that cannot be read back is
    [None]. The [trace] records what the persistent level did, in
    order. *)

Inductive event :=
| Loaded (name : string)    (* the store was read and the blob returned *)
| Built (name : string).  (* the builder ran and its result was stored *)

#[global] Instance event_eq_dec : EqDecision event.
Proof. solve_decision. Defined.

Section caches.

Context {A V : Type} `{Countable A}.

Record world := World {
  memo : gmap (string * A) V;
  store : gmap string (option V);
  trace : list event;
}.

(** A function of the program, with its effects on the caches. *)
Definition fn := A → world → V * world.

(** Modelled from the spec: [ankura.util.memoize] is not among the
    sources. "On each call, the full argument list is used as a lookup
    key. On key hit, returns the stored result without invoking [f]. On
    miss, invokes [f], stores, returns." *)
Definition memoize (fname : string) (f : fn) : fn :=
  λ args w,
    match memo w !! (fname, args) with
    | Some v => (v, w)
    | None =>
        let '(v, w) := f args w in
        (v, World (<[(fname, args) := v]> (memo w)) (store w) (trace w))
    end.

(** Modelled from the spec: [ankura.util.pickle_cache] is not among the
    sources. "On call, if durable storage under that name exists and is
    readable, deserialize and return its contents; [g] is not invoked.
    Otherwise invoke [g], serialize the result to storage under that
    name, and return it." *)
Definition pickle_cache (name : string) (g : fn) : fn :=
  λ args w,
    match store w !! name with
    | Some (Some v) => (v, World (memo w) (store w) (trace w ++ [Loaded name]))
    | _ =>
        let '(v, w) := g args w in
        (v, World (memo w) (<[name := Some v]> (store w))
              (trace w ++ [Built name]))
    end.

(** A run of calls, one after the other. *)
Fixpoint calls (f : fn) (l : list A) (w : world) : list V * world :=
  match l with
  | [] => ([], w)
  | a :: l' =>
      let '(v, w) := f a w in
      let '(vs, w) := calls f l' w in
      (v :: vs, w)
  end.

(** How often the persistent level of [name] was consulted. *)
Definition touches (name : string) (t : list event) : nat :=
  length (filter (λ e, e = Loaded name ∨ e = Built name) t).

End caches.

Arguments world : clear implicits.
Arguments world A V {_ _}.
Arguments fn : clear implicits.
Arguments fn A V {_ _}.

End Util.

(** ** [server/server.py] *)

Module Server.

(** A dataset, as far as the server reads it: its vocabulary. *)
Record Dataset := { vocab : list str }.

(** A two-dimensional [numpy] array of weights. *)
Record ndarray (W : Type) := {
  shape0 : nat;
  shape1 : nat;
  item : nat → nat → W;
}.
Arguments shape0 {W} _.
Arguments shape1 {W} _.
Arguments item {W} _ _ _.

(** [a[:, k]] *)
Definition column {W} (a : ndarray W) (k : nat) : list W :=
  map (λ i, item a i k) (seq 0 (shape0 a)).

(** [l[-n:]] and [l[::-1]] *)
Definition last_n {X} (n : nat) (l : list X) : list X :=
  drop (length l - n) l.
Definition reversed {X} (l : list X) : list X := rev l.

(** [vocab.index(anchor)]: the first position of [anchor], [ValueError]
    when there is none. Only a string is equal to a term. *)
Fixpoint index_from (i : nat) (vocab : list str) (term : str) : option nat :=
  match vocab with
  | [] => None
  | t :: vocab' =>
      if decide (t = term) then Some i else index_from (S i) vocab' term
  end.

Definition list_index (vocab : list str) (x : pyval) : result pyval :=
  match x with
  | PStr term =>
      match index_from 0 vocab term with
      | Some i => Ok (PInt (Z.of_nat i))
      | None => Raise ValueError
      end
  | _ => Raise ValueError
  end.

(** [vocab[i]] for an integer [i]: a negative index counts from the end. *)
Definition list_getitem (vocab : list str) (i : Z) : result str :=
  let n := Z.of_nat (length vocab) in
  let j := if (i <? 0)%Z then (i + n)%Z else i in
  if (j <? 0)%Z then Raise IndexError
  else match vocab !! Z.to_nat j with
       | Some t => Ok t
       | None => Raise IndexError
       end.

(** [vocab[token]] for any value: only integers index a list. *)
Definition getitem (vocab : list str) (token : pyval) : result str :=
  match token with
  | PInt i => list_getitem vocab i
  | _ => Raise TypeError
  end.

(** [for x in v]: the elements of a list or tuple, the characters of a
    string; an integer cannot be iterated. *)
Definition iterate (v : pyval) : result (list pyval) :=
  match v with
  | PList l | PTuple l => Ok l
  | PStr s => Ok (map (λ c, PStr [c]) s)
  | PInt _ => Raise TypeError
  end.

(** [convert_anchor(dataset, anchor)] *)
Definition convert_anchor (dataset : Dataset) (anchor : pyval)
    : result pyval :=
  match anchor with
  | PInt _ => Ok anchor
  | _ => list_index (vocab dataset) anchor
  end.

(** [reindex_anchors(dataset, anchors)]. The functions under
    [@ankura.util.memoize] alone are given by their bodies. The wrapper
    uses the arguments as the key of a dictionary, so it returns what the
    body returns when the arguments can be hashed, as the tuples can that
    [topic_request] passes; a list among the arguments makes the wrapper
    raise before the body runs, which the body does not show. The
    properties of these functions are stated on tuples. *)
Definition reindex_anchors (dataset : Dataset) (anchors : pyval)
    : result pyval :=
  let conversion := λ t, convert_anchor dataset t in
  Util.tuplize conversion anchors.

(** [tokenify_anchors(dataset, anchors)] *)
Definition tokenify_anchors (dataset : Dataset) (anchors : pyval)
    : result (list (list str)) :=
  anchors ← iterate anchors;
  mapM (λ anchor,
          anchor ← iterate anchor;
          mapM (λ token, getitem (vocab dataset) token) anchor)
       anchors.

(** The body of the answer of [topic_request], before [flask.jsonify]:
    [anchors] is absent when the keyword is not passed. *)
Record response := {
  topics : list (list str);
  anchors : option (list (list str));
}.

Section server.

(** The weights of a topic matrix with their order. *)
Context {W : Type}.

(** What the server takes from outside the repository's sources: the
    dataset that [ankura.run_pipeline] builds, [json.loads],
    [numpy.argsort], [ankura.gramschmidt_anchors] and
    [ankura.recover_topics]. *)
Variable get_newsgroups : Dataset.
Variable json_loads : str → result pyval.
Variable argsort : list W → list nat.
Variable gramschmidt_anchors : Dataset → nat → nat → pyval.
Variable recover_topics : Dataset → pyval → ndarray W.

(** [default_anchors()] *)
Definition default_anchors : pyval :=
  gramschmidt_anchors get_newsgroups 20 500.

(** [get_topics(dataset, anchors)] *)
Definition get_topics (dataset : Dataset) (anchors : pyval) : ndarray W :=
  recover_topics dataset anchors.

(** [numpy.argsort(topics[:, k])[-10:][::-1]] *)
Definition top_words (topics : ndarray W) (k : nat) : list nat :=
  reversed (last_n 10 (argsort (column topics k))).

(** The loop of [topic_request] that fills [topic_summary]. *)
Definition summarize (dataset : Dataset) (topics : ndarray W)
    : result (list (list str)) :=
  mapM (λ k,
          mapM (λ word, list_getitem (vocab dataset) (Z.of_nat word))
               (top_words topics k))
       (seq 0 (shape1 topics)).

(** The anchors a request names: the defaults when the query string has
    no [anchors], what it holds otherwise. *)
Definition requested_anchors (raw_anchors : option str) : result pyval :=
  match raw_anchors with
  | None => Ok default_anchors
  | Some raw => v ← json_loads raw; Util.tuplize Ok v
  end.

(** [topic_request()], with [flask.request.args.get('anchors')] as its
    argument. *)
Definition topic_request (raw_anchors : option str) : result response :=
  let dataset := get_newsgroups in
  anchors ← requested_anchors raw_anchors;
  anchors ← reindex_anchors dataset anchors;
  let topics := get_topics dataset anchors in
  topic_summary ← summarize dataset topics;
  match raw_anchors with
  | None =>
      tokens ← tokenify_anchors dataset anchors;
      Ok {| topics := topic_summary; anchors := Some tokens |}
  | Some _ =>
      Ok {| topics := topic_summary; anchors := None |}
  end.

(** [get_base_anchors()], before [flask.jsonify]. *)
Definition get_base_anchors : result (list (list str)) :=
  let base_anchors := default_anchors in
  tokenify_anchors get_newsgroups base_anchors.

(** [get_vocab()], before [flask.jsonify]. *)
Definition get_vocab : list str :=
  let dataset := get_newsgroups in
  vocab dataset.

End server.

End Server.

(** ** The cached builders of the server

    [get_newsgroups] and [default_anchors] with their decorators, in the
    order of the source: [@ankura.util.memoize] above
    [@ankura.util.pickle_cache]. Both take no argument; what they cache is
    a dataset or a set of anchors. *)

Module Cached.

Inductive value :=
| VDataset (dataset : Server.Dataset)
| VAnchors (anchors : pyval).

(** The dataset in a cached value; a value of the other kind has no
    vocabulary. *)
Definition as_dataset (v : value) : Server.Dataset :=
  match v with
  | VDataset dataset => dataset
  | VAnchors _ => {| Server.vocab := [] |}
  end.

Section builders.

(** What [ankura.run_pipeline(pipeline)] builds, and
    [ankura.gramschmidt_anchors]. *)
Variable run_pipeline : Server.Dataset.
Variable gramschmidt_anchors : Server.Dataset → nat → nat → pyval.

Definition build_newsgroups : Util.fn unit value :=
  λ _ w, (VDataset run_pipeline, w).

Definition get_newsgroups : Util.fn unit value :=
  Util.memoize "get_newsgroups"
    (Util.pickle_cache "fcc.pickle" build_newsgroups).

Definition build_default_anchors : Util.fn unit value :=
  λ _ w,
    let '(dataset, w) := get_newsgroups () w in
    (VAnchors (gramschmidt_anchors (as_dataset dataset) 20 500), w).

Definition default_anchors : Util.fn unit value :=
  Util.memoize "default_anchors"
    (Util.pickle_cache "fcc-anchors-default.pickle" build_default_anchors).

End builders.

(** A process that has cached nothing, over an empty store. *)
Definition cold : Util.world unit value := Util.World ∅ ∅ [].

(** A process that has cached nothing, started over a store that holds
    the blob [name] with the value [v]. *)
Definition restarted (name : string) (v : value) : Util.world unit value :=
  Util.World ∅ {[ name := Some v ]} [].

End Cached.

(** * The vocabulary of the properties *)

(** A token as [simple] delivers it: not empty, letters [a] to [z] only. *)
Definition plain_token (token : str) : Prop :=
  token ≠ [] ∧ Forall (λ c, is_az c = true) token.

(** A tokenizer that does not see white space at the front of its
    source. *)
Definition ignores_leading_space (tokenizer : Tokenize.Tokenizer) : Prop :=
  ∀ ws doc_file,
    Forall (λ c, isspace c = true) ws →
    tokenizer (ws ++ doc_file) = tokenizer doc_file.

(** The text holds a [<] with a [>] somewhere after it: what the pattern
    [<.*?>] takes for a tag. *)
Fixpoint has_tag (s : str) : bool :=
  match s with
  | [] => false
  | c :: s' => ((c =? 60) && existsb (N.eqb 62) s') || has_tag s'
  end.

(** The text [pat] occurs in [s]. *)
Fixpoint has_substr (pat s : str) : bool :=
  bool_decide (pat `prefix_of` s)
  || match s with
     | [] => false
     | _ :: s' => has_substr pat s'
     end.

(** The anchors of a request that names them by their terms. *)
Definition token_anchors (groups : list (list str)) : pyval :=
  PList (map (λ group, PList (map PStr group)) groups).

Definition index_anchors (groups : list (list nat)) : pyval :=
  PTuple (map (λ group, PTuple (map (λ i, PInt (Z.of_nat i)) group)) groups).

(** Anchors given by their terms, once [tuplize] has made tuples of them. *)
Definition token_tuples (groups : list (list str)) : pyval :=
  PTuple (map (λ group, PTuple (map PStr group)) groups).

Section topic_vocabulary.

Context {W : Type} (wle : relation W).

(** [col[i] <= col[j]] *)
Definition weight_le (col : list W) (i j : nat) : Prop :=
  ∀ x y, col !! i = Some x → col !! j = Some y → wle x y.

(** What [numpy.argsort] promises: the positions of the array, in an
    order in which the weights do not decrease. *)
Definition argsort_spec (argsort : list W → list nat) : Prop :=
  ∀ col, argsort col ≡ₚ seq 0 (length col)
         ∧ StronglySorted (weight_le col) (argsort col).

(** What [ankura.recover_topics] promises: a matrix with a row for each
    term of the vocabulary and a column for each anchor. *)
Definition recover_topics_spec
    (recover_topics : Server.Dataset → pyval → Server.ndarray W) : Prop :=
  ∀ dataset (l : list pyval),
    Server.shape0 (recover_topics dataset (PTuple l))
      = length (Server.vocab dataset)
    ∧ Server.shape1 (recover_topics dataset (PTuple l)) = length l.

(** [words] are the ten highest-weighted positions of the column [col]
    (all of them when there are fewer than ten), the heaviest first. *)
Definition top_ten (col : list W) (words : list nat) : Prop :=
  length words = Nat.min 10 (length col)
  ∧ NoDup words
  ∧ (∀ i, i ∈ words → (i < length col)%nat)
  ∧ StronglySorted (flip (weight_le col)) words
  ∧ (∀ i j, (j < length col)%nat → j ∉ words → i ∈ words →
            weight_le col j i).

End topic_vocabulary.

Section cache_vocabulary.

Import Util.
Context {A V : Type} `{Countable A}.

(** The arguments in [l] that the dictionary of [fname] does not hold. *)
Definition fresh (fname : string) (w : world A V) (l : list A) : gset A :=
  list_to_set (filter (λ a, memo w !! (fname, a) = None) l).

(** The builder [g] leaves the dictionary of [fname] and the blob [name]
    alone. *)
Definition builder_frame (fname name : string) (g : fn A V) : Prop :=
  ∀ a w,
    (∀ b, memo (g a w).2 !! (fname, b) = memo w !! (fname, b))
    ∧ touches name (trace (g a w).2) = touches name (trace w).

(** The discipline of the two levels, for a function [f] with the
    dictionary of [fname] and the blob [name]: a call that the dictionary
    holds returns from it and changes nothing; only a call that the
    dictionary misses consults the persistent level; on such a call a
    readable blob is returned, the builder is not run, and the dictionary
    holds the value afterwards; every call that the dictionary misses
    consults the persistent level once and leaves its result in the
    dictionary; and over a run of calls the persistent level is consulted
    once for each argument that the dictionary did not hold. *)
Definition two_level (fname name : string) (f : fn A V) : Prop :=
  (∀ a w v, memo w !! (fname, a) = Some v → f a w = (v, w))
  ∧ (∀ a w,
       touches name (trace (f a w).2) ≠ touches name (trace w) →
       memo w !! (fname, a) = None)
  ∧ (∀ a w v,
       memo w !! (fname, a) = None →
       store w !! name = Some (Some v) →
       f a w = (v, World (<[(fname, a) := v]> (memo w)) (store w)
                     (trace w ++ [Loaded name])))
  ∧ (∀ a w,
       memo w !! (fname, a) = None →
       touches name (trace (f a w).2) = S (touches name (trace w))
       ∧ memo (f a w).2 !! (fname, a) = Some (f a w).1)
  ∧ (∀ l w,
       touches name (trace (calls f l w).2)
       = (touches name (trace w) + size (fresh fname w l))%nat).

End cache_vocabulary.

(** A function without arguments consults the persistent level once in a
    process: not at all when the dictionary holds its value, and once,
    however often it is called, when it does not. *)
Definition once_per_process {V : Type} (fname name : string)
    (f : Util.fn unit V) : Prop :=
  ∀ (n : nat) w,
    (is_Some (Util.memo w !! (fname, ())) →
     Util.touches name (Util.trace (Util.calls f (replicate n ()) w).2)
     = Util.touches name (Util.trace w))
    ∧ (Util.memo w !! (fname, ()) = None →
       Util.touches name
         (Util.trace (Util.calls f (replicate (S n) ()) w).2)
       = S (Util.touches name (Util.trace w))).

(** ** An instance of the server

    A vocabulary of three terms, integer weights, a sorting [argsort], and
    stand-ins for the parser and the two functions of [ankura]. *)

Module Demo.

Definition dataset : Server.Dataset :=
  {| Server.vocab := [py "a"; py "b"; py "c"] |}.

Definition weight_at (col : list Z) (i : nat) : Z := default 0%Z (col !! i).

Definition lighter (col : list Z) (i j : nat) : Prop :=
  (weight_at col i ≤ weight_at col j)%Z.

#[global] Instance lighter_dec col : RelDecision (lighter col).
Proof. intros i j. unfold lighter. apply _. Defined.

Definition argsort (col : list Z) : list nat :=
  merge_sort (lighter col) (seq 0 (length col)).

Definition json_loads (raw : str) : result pyval :=
  if decide (raw = py "[[a],[c,b]]")
  then Ok (token_anchors [[py "a"]; [py "c"; py "b"]])
  else Raise JSONDecodeError.

Definition gramschmidt_anchors (_ : Server.Dataset) (_ _ : nat) : pyval :=
  index_anchors [[0%nat]; [2%nat]].

Definition recover_topics (dataset : Server.Dataset) (anchors : pyval)
    : Server.ndarray Z :=
  {| Server.shape0 := length (Server.vocab dataset);
     Server.shape1 :=
       match anchors with PTuple l | PList l => length l | _ => 0 end;
     Server.item i k := Z.of_nat ((i + 2 * k) mod 3) |}.

Definition topic_request : option str → result Server.response :=
  Server.topic_request dataset json_loads argsort gramschmidt_anchors
    recover_topics.

End Demo.

(** ** Further vocabulary *)

(** A line with its line feed. *)
Definition is_line (l : str) : Prop := ∃ l', l = l' ++ [LF] ∧ LF ∉ l'.

(** The strings in a value, from left to right. *)
Fixpoint strings_of (v : pyval) : list str :=
  match v with
  | PInt _ => []
  | PStr s => [s]
  | PList l | PTuple l => concat (map strings_of l)
  end.

(** The value is made of integers and tuples only: anchors as
    [reindex_anchors] leaves them. *)
Fixpoint indexed (v : pyval) : bool :=
  match v with
  | PInt _ => true
  | PStr _ => false
  | PList _ => false
  | PTuple l => forallb indexed l
  end.

(** The value is made of integers, strings and tuples only: what
    [tuplize] makes of arrays of integers and strings, and what a function
    under [memoize] can take as an argument. *)
Fixpoint hashable (v : pyval) : bool :=
  match v with
  | PInt _ | PStr _ => true
  | PList _ => false
  | PTuple l => forallb hashable l
  end.

(** Groups of integers as tuples, and as the lists that [json.loads]
    makes of arrays. *)
Definition int_tuples (groups : list (list Z)) : pyval :=
  PTuple (map (λ group, PTuple (map PInt group)) groups).

Definition int_lists (groups : list (list Z)) : pyval :=
  PList (map (λ group, PList (map PInt group)) groups).

(** [i] indexes a list of [n] elements, from the front or from the
    end. *)
Definition in_range (n : nat) (i : Z) : Prop :=
  (- Z.of_nat n ≤ i < Z.of_nat n)%Z.

(** A stand-in for the parser that knows the anchors of the instance
    both as terms and as positions. *)
Definition demo_json_loads_both (raw : str) : result pyval :=
  if decide (raw = py "[[0],[2,1]]")
  then Ok (int_lists [[0%Z]; [2%Z; 1%Z]])
  else Demo.json_loads raw.

(** An induction principle for values that reaches into lists and
    tuples. *)
Definition pyval_nested_ind (P : pyval → Prop)
    (HInt : ∀ i, P (PInt i)) (HStr : ∀ s, P (PStr s))
    (HList : ∀ l, Forall P l → P (PList l))
    (HTuple : ∀ l, Forall P l → P (PTuple l)) : ∀ v, P v :=
  fix go v :=
    match v with
    | PInt i => HInt i
    | PStr s => HStr s
    | PList l =>
        HList l ((fix all l : Forall P l :=
                    match l with
                    | [] => @List.Forall_nil _ P
                    | x :: l' => @List.Forall_cons _ P x l' (go x) (all l')
                    end) l)
    | PTuple l =>
        HTuple l ((fix all l : Forall P l :=
                     match l with
                     | [] => @List.Forall_nil _ P
                     | x :: l' => @List.Forall_cons _ P x l' (go x) (all l')
                     end) l)
    end.

(** * Properties *)

(** ** Strings *)

Lemma is_az_not_space c : is_az c = true → isspace c = false.
Proof.
  unfold is_az, isspace. intros Haz.
  apply andb_true_iff in Haz as [H1 H2].
  apply N.leb_le in H1, H2.
  repeat match goal with
  | |- context [?a <=? ?b] =>
      let E := fresh in destruct (N.leb_spec a b) as [E|E]
  | |- context [?a =? ?b] =>
      let E := fresh in destruct (N.eqb_spec a b) as [E|E]
  end; simpl; try reflexivity; lia.
Qed.

Lemma flush_app w : w ≠ [] → flush w = [w].
Proof. by destruct w. Qed.

Lemma split_acc_spaces w ws s :
  Forall (λ c, isspace c = true) ws →
  ws ≠ [] →
  split_acc w (ws ++ s) = flush w ++ split_acc [] s.
Proof.
  intros Hws. revert w. induction Hws as [|c ws Hc Hws IH]; intros w Hne.
  - done.
  - simpl. rewrite Hc. f_equal.
    destruct ws as [|c' ws']; [done|].
    by rewrite IH.
Qed.

Lemma split_acc_spaces_nil ws s :
  Forall (λ c, isspace c = true) ws →
  split_acc [] (ws ++ s) = split_acc [] s.
Proof.
  intros Hws. destruct ws as [|c ws]; [done|].
  by rewrite split_acc_spaces.
Qed.

Lemma split_acc_word w t s :
  Forall (λ c, isspace c = false) t →
  split_acc w (t ++ s) = split_acc (w ++ t) s.
Proof.
  intros Ht. revert w. induction Ht as [|c t Hc Ht IH]; intros w.
  - by rewrite app_nil_r.
  - simpl. rewrite Hc, IH. by rewrite <- app_assoc.
Qed.

Lemma split_acc_trailing w s ws :
  Forall (λ c, isspace c = true) ws →
  split_acc w (s ++ ws) = split_acc w s.
Proof.
  intros Hws. revert w. induction s as [|c s IH]; intros w.
  - destruct ws as [|c ws]; [done|].
    rewrite app_nil_l, <- (app_nil_r (c :: ws)).
    rewrite split_acc_spaces by done. simpl. by rewrite app_nil_r.
  - simpl. destruct (isspace c); by rewrite IH.
Qed.

Lemma drop_while_split {A} (p : A → bool) (l : list A) :
  ∃ k, l = k ++ drop_while p l ∧ Forall (λ x, p x = true) k.
Proof.
  induction l as [|x l (k & Hl & Hk)]; simpl.
  - by exists [].
  - destruct (p x) eqn:Hx.
    + exists (x :: k). split; [by rewrite Hl at 1|by constructor].
    + by exists [].
Qed.

Lemma lstrip_split s :
  ∃ ws, s = ws ++ lstrip s ∧ Forall (λ c, isspace c = true) ws.
Proof. apply drop_while_split. Qed.

Lemma rstrip_split s :
  ∃ ws, s = rstrip s ++ ws ∧ Forall (λ c, isspace c = true) ws.
Proof.
  unfold rstrip. destruct (drop_while_split isspace (rev s)) as (k & Hs & Hk).
  exists (rev k). split.
  - rewrite <- rev_app_distr, <- Hs. by rewrite rev_involutive.
  - by apply Forall_rev.
Qed.

Lemma strip_split s :
  ∃ ws1 ws2, s = ws1 ++ strip s ++ ws2
    ∧ Forall (λ c, isspace c = true) ws1
    ∧ Forall (λ c, isspace c = true) ws2.
Proof.
  destruct (lstrip_split s) as (ws1 & H1 & Hw1).
  destruct (rstrip_split (lstrip s)) as (ws2 & H2 & Hw2).
  exists ws1, ws2. unfold strip. by rewrite <- H2.
Qed.

Lemma str_split_strip s : str_split (strip s) = str_split s.
Proof.
  destruct (strip_split s) as (ws1 & ws2 & Hs & H1 & H2).
  unfold str_split. rewrite Hs at 2.
  by rewrite split_acc_spaces_nil, split_acc_trailing.
Qed.

Lemma strip_blank ws : Forall (λ c, isspace c = true) ws → strip ws = [].
Proof.
  intros Hws. unfold strip, lstrip.
  assert (drop_while isspace ws = []) as ->; [|done].
  induction Hws as [|c ws Hc _ IH]; simpl; [done|by rewrite Hc].
Qed.

Lemma strip_nil_blank s : strip s = [] → Forall (λ c, isspace c = true) s.
Proof.
  intros Hs. destruct (strip_split s) as (ws1 & ws2 & Heq & H1 & H2).
  rewrite Heq, Hs. simpl. by apply Forall_app.
Qed.

(** ** The regular expressions *)

Section re_facts.

Import Re.
Variable ci_eq : codepoint → codepoint → bool.

Lemma strip_prefix_exact t s s' :
  strip_prefix ci_eq false t s = Some s' ↔ s = t ++ s'.
Proof.
  revert s. induction t as [|a t IH]; intros s; simpl.
  - split; congruence.
  - destruct s as [|b s]; [done|].
    destruct (N.eqb_spec a b) as [->|Hne].
    + rewrite IH. split; congruence.
    + split; congruence.
Qed.

Lemma strip_prefix_suffix ci t s s' :
  strip_prefix ci_eq ci t s = Some s' → s' `suffix_of` s.
Proof.
  revert s. induction t as [|a t IH]; intros s; simpl.
  - by intros [= ->].
  - destruct s as [|b s]; [done|].
    destruct (if ci then ci_eq a b else a =? b); [|done].
    intros Hs. by apply suffix_cons_r, IH.
Qed.

(** A successful match hands a suffix of the text to its continuation. *)
Lemma rmatch_suffix ci r : ∀ s g k x,
  rmatch ci_eq ci r s g k = Some x →
  ∃ s' g', s' `suffix_of` s ∧ k s' g' = Some x.
Proof.
  induction r as [c t|lo hi| |r1 IH1 r2 IH2|r1 IH1 r2 IH2|r IH|n r IH|n];
    intros s g k x; simpl.
  - destruct (strip_prefix ci_eq c t s) as [s'|] eqn:Hp; [|done].
    intros Hk. exists s', g. eauto using strip_prefix_suffix.
  - destruct s as [|c' s']; [done|].
    destruct ((lo <=? c') && (c' <=? hi)); [done|].
    intros Hk. exists s', g. split; [by apply suffix_cons_r|done].
  - induction s as [|c s IHs].
    + destruct (k [] g) eqn:Hk; [|done]. intros [= ->]. by exists [], g.
    + destruct (k (c :: s) g) eqn:Hk.
      * intros [= ->]. by exists (c :: s), g.
      * intros (s' & g' & Hs & Hk')%IHs.
        exists s', g'. split; [by apply suffix_cons_r|done].
  - intros (s1 & g1 & Hs1 & (s2 & g2 & Hs2 & Hk)%IH2)%IH1.
    exists s2, g2. split; [by etrans|done].
  - destruct (rmatch ci_eq ci r1 s g k) eqn:H1.
    + intros [= ->]. eauto.
    + eauto.
  - destruct (rmatch ci_eq ci r s g k) eqn:H1.
    + intros [= ->]. eauto.
    + intros Hk. by exists s, g.
  - intros (s1 & g1 & Hs1 & Hk)%IH. eauto.
  - destruct (get_group n g) as [t|]; [|done].
    destruct (strip_prefix ci_eq ci t s) as [s'|] eqn:Hp; [|done].
    intros Hk. exists s', g. eauto using strip_prefix_suffix.
Qed.

Lemma rmatch_lit ci t s g k x :
  rmatch ci_eq ci (Lit false t) s g k = Some x →
  ∃ s', s = t ++ s' ∧ k s' g = Some x.
Proof.
  simpl. destruct (strip_prefix ci_eq false t s) as [s'|] eqn:Hp; [|done].
  apply strip_prefix_exact in Hp. eauto.
Qed.

Lemma re_match_lit ci t s :
  re_match ci_eq ci (Lit false t) s
  = if decide (t `prefix_of` s) then Some (drop (length t) s) else None.
Proof.
  unfold re_match. simpl.
  destruct (strip_prefix ci_eq false t s) as [s'|] eqn:Hp.
  - apply strip_prefix_exact in Hp as ->.
    rewrite decide_True by by apply prefix_app_r.
    by rewrite drop_app_length.
  - case_decide as Hpre; [|done]. destruct Hpre as [s' ->].
    by rewrite (proj2 (strip_prefix_exact t _ s')) in Hp.
Qed.

(** Where the pattern matches nowhere, [re.sub] returns the text. *)
Lemma sub_from_no_match ci r repl s :
  (∀ t, t `suffix_of` s → re_match ci_eq ci r t = None) →
  re_sub ci_eq ci r repl s = s.
Proof.
  unfold re_sub. induction s as [|c s IH]; intros Hno; simpl; [done|].
  rewrite Hno by done. f_equal. apply IH.
  intros t Ht. apply Hno. by apply suffix_cons_r.
Qed.

(** [re.sub(r'[^a-z]', '', s)] keeps the characters [a] to [z]. *)
Lemma re_sub_not_az ci s :
  re_sub ci_eq ci Tokenize.not_az [] s = List.filter is_az s.
Proof.
  unfold re_sub. induction s as [|c s IH]; simpl; [done|].
  unfold re_match, is_az. simpl.
  destruct ((97 <=? c) && (c <=? 122)).
  - by rewrite IH.
  - replace (S (length s) - length s)%nat with 1%nat by lia.
    simpl. exact IH.
Qed.

End re_facts.

(** ** The tokenizers at work *)

Example simple_ex :
  Tokenize.simple_a Tokenize.split (py "Hello, World! 42 it's") = [py "hello"; py "world"; py "its"].
Proof. vm_compute. reflexivity. Qed.

Example news_ex :
  Tokenize.news (Tokenize.simple_a Tokenize.split) (py "From: a@b.c
Subject: hi

Body text here
") = [py "body"; py "text"; py "here"].
Proof. vm_compute. reflexivity. Qed.

Example html_ex :
  Tokenize.html_a (Tokenize.simple_a Tokenize.split)
    (py "<html><SCRIPT type=x>var a;</script><!-- c -->
<p>Some <b>bold</b>&nbsp;text</p></html>")
  = [py "some"; py "bold"; py "text"].
Proof. vm_compute. reflexivity. Qed.

(** ** [simple] *)

Lemma filter_is_az s : Forall (λ c, is_az c = true) (List.filter is_az s).
Proof.
  induction s as [|c s IH]; simpl; [done|].
  destruct (is_az c) eqn:Hc; [by constructor|done].
Qed.

Lemma filter_is_az_id s :
  Forall (λ c, is_az c = true) s → List.filter is_az s = s.
Proof.
  induction 1 as [|c s Hc _ IH]; simpl; [done|]. by rewrite Hc, IH.
Qed.

Lemma map_id_Forall {X} (f : X → X) (l : list X) :
  Forall (λ x, f x = x) l → map f l = l.
Proof. induction 1 as [|x l Hx _ IH]; simpl; [done|]. by rewrite Hx, IH. Qed.

Lemma filter_id_Forall {X} (P : X → Prop) `{∀ x, Decision (P x)} l :
  Forall P l → filter P l = l.
Proof.
  induction 1 as [|x l Hx _ IH]; [done|].
  rewrite filter_cons, decide_True by done. by rewrite IH.
Qed.

Lemma str_split_join sep tokens :
  sep ≠ [] →
  Forall (λ c, isspace c = true) sep →
  Forall (λ t, t ≠ [] ∧ Forall (λ c, isspace c = false) t) tokens →
  str_split (str_join sep tokens) = tokens.
Proof.
  intros Hne Hsep. unfold str_split.
  induction 1 as [|t tokens [Ht Hw] Htokens IH]; [done|].
  destruct tokens as [|t' tokens'].
  - simpl. rewrite <- (app_nil_r t) at 1. rewrite split_acc_word by done.
    simpl. by rewrite flush_app.
  - change (str_join sep (t :: t' :: tokens'))
      with (t ++ sep ++ str_join sep (t' :: tokens')).
    rewrite split_acc_word, split_acc_spaces, IH by done.
    simpl. by rewrite flush_app.
Qed.

Section simple_facts.

Variable str_lower : str → str.
Variable ci_eq : codepoint → codepoint → bool.

Lemma simple_plain splitter doc_file :
  Forall plain_token (Tokenize.simple str_lower ci_eq splitter doc_file).
Proof.
  unfold Tokenize.simple. apply Forall_forall.
  intros t [Hne Hin%list_elem_of_In]%list_elem_of_filter.
  apply in_map_iff in Hin as (t0 & <- & _).
  split; [done|]. rewrite re_sub_not_az. apply filter_is_az.
Qed.

(** [simple] leaves a sequence of plain tokens as it is, provided that
    lower-casing does. *)
Lemma simple_of_plain splitter doc_file :
  (∀ s, Forall (λ c, is_az c = true) s → str_lower s = s) →
  Forall plain_token (splitter doc_file) →
  Tokenize.simple str_lower ci_eq splitter doc_file = splitter doc_file.
Proof.
  intros Hlower Hplain. unfold Tokenize.simple.
  rewrite (map_id_Forall str_lower).
  2: { eapply Forall_impl; [done|]. intros t [_ Ht]. by apply Hlower. }
  rewrite map_id_Forall.
  2: { eapply Forall_impl; [done|]. intros t [_ Ht].
       rewrite re_sub_not_az. by apply filter_is_az_id. }
  apply filter_id_Forall.
  eapply Forall_impl; [done|]. by intros t [Hne _].
Qed.

End simple_facts.

(** C10. Whatever the source, the splitter and the tokens the splitter
    delivers, every token that [simple] returns is a non-empty string made
    of the letters [a] to [z] only. *)
Theorem simple_tokens_lowercase_alphabetic
    (str_lower : str → str) (ci_eq : codepoint → codepoint → bool)
    (splitter : Tokenize.Tokenizer) (doc_file : TextIO) :
  Forall (λ token, token ≠ [] ∧ Forall (λ c, 97 ≤ c ≤ 122) token)
    (Tokenize.simple str_lower ci_eq splitter doc_file).
Proof.
  eapply Forall_impl; [apply simple_plain|].
  intros token [Hne Haz]. split; [done|].
  eapply Forall_impl; [done|]. intros c Hc. unfold is_az in Hc.
  apply andb_true_iff in Hc as [H1%N.leb_le H2%N.leb_le]. lia.
Qed.

(** C6. [simple] is idempotent: the tokens of a source, joined by
    whitespace and tokenized again, are the same tokens. Lower-casing is
    assumed to leave a string of the letters [a] to [z] as it is, as
    Python's does. *)
Theorem simple_idempotent
    (str_lower : str → str) (ci_eq : codepoint → codepoint → bool)
    (sep : str) (doc_file : TextIO) :
  (∀ s, Forall (λ c, is_az c = true) s → str_lower s = s) →
  sep ≠ [] →
  Forall (λ c, isspace c = true) sep →
  let simple := Tokenize.simple str_lower ci_eq Tokenize.split in
  simple (StringIO (str_join sep (simple doc_file))) = simple doc_file.
Proof.
  intros Hlower Hne Hsep simple.
  pose proof (simple_plain str_lower ci_eq Tokenize.split doc_file) as Hplain.
  fold simple in Hplain.
  assert (Tokenize.split (StringIO (str_join sep (simple doc_file)))
          = simple doc_file) as Hsplit.
  { unfold Tokenize.split, StringIO, read. simpl.
    apply str_split_join; [done..|].
    eapply Forall_impl; [done|]. intros t [Ht Haz]. split; [done|].
    eapply Forall_impl; [done|]. apply is_az_not_space. }
  unfold simple at 1. rewrite simple_of_plain; [done..|].
  by rewrite Hsplit.
Qed.

(** ** [news] *)

Lemma readline_app f : f = fst (readline f) ++ snd (readline f).
Proof.
  induction f as [|c f IH]; simpl; [done|].
  destruct (c =? LF); [done|].
  destruct (readline f) as [line rest]. simpl in *. by rewrite IH at 1.
Qed.

Lemma readline_rest_shorter f :
  fst (readline f) ≠ [] → (length (snd (readline f)) < length f)%nat.
Proof.
  intros Hne. rewrite (readline_app f) at 2. rewrite length_app.
  destruct (fst (readline f)); [done|]. simpl. lia.
Qed.

(** [splitlines] lists what successive calls of [readline] deliver. *)
Lemma lines_acc_readline cur f :
  lines_acc cur f =
    match f with
    | [] => flush cur
    | _ :: _ => (cur ++ fst (readline f)) :: lines_acc [] (snd (readline f))
    end.
Proof.
  revert cur. induction f as [|c f IH]; intros cur; simpl; [done|].
  destruct (c =? LF); [done|].
  rewrite IH. destruct (readline f) as [line rest] eqn:Hr. simpl.
  destruct f as [|c' f'].
  - injection Hr as <- <-. simpl. rewrite flush_app; [done|].
    by destruct cur.
  - by rewrite <- app_assoc.
Qed.

Lemma splitlines_readline c f :
  splitlines (c :: f)
  = fst (readline (c :: f)) :: splitlines (snd (readline (c :: f))).
Proof. unfold splitlines. by rewrite lines_acc_readline. Qed.

(** The fuel of the header loop does not matter once it covers the
    source. *)
Lemma skip_header_loop_fuel n m f :
  (length f ≤ n)%nat → (length f ≤ m)%nat →
  Tokenize.skip_header_loop n f = Tokenize.skip_header_loop m f.
Proof.
  revert m f. induction n as [|n IH]; intros m f Hn Hm.
  - destruct f; [|simpl in Hn; lia]. by destruct m.
  - destruct m as [|m].
    + destruct f; [done|simpl in Hm; lia].
    + simpl. destruct (readline f) as [line rest] eqn:Hr.
      destruct (strip line) eqn:Hs; [done|].
      assert (line ≠ []) as Hline by (by intros ->).
      pose proof (readline_rest_shorter f) as Hlt.
      rewrite Hr in Hlt. simpl in Hlt. specialize (Hlt Hline).
      apply IH; lia.
Qed.

(** The header loop, as the source has it: read a line; stop when it is
    blank, go on otherwise. *)
Lemma skip_header_unfold f :
  Tokenize.skip_header f =
    let '(line, rest) := readline f in
    match strip line with
    | [] => rest
    | _ :: _ => Tokenize.skip_header rest
    end.
Proof.
  unfold Tokenize.skip_header at 1.
  destruct f as [|c f]; [done|].
  change (length (c :: f)) with (S (length f)).
  cbn [Tokenize.skip_header_loop].
  destruct (readline (c :: f)) as [line rest] eqn:Hr.
  destruct (strip line) eqn:Hs; [done|].
  assert (line ≠ []) as Hline by (by intros ->).
  pose proof (readline_rest_shorter (c :: f)) as Hlt.
  rewrite Hr in Hlt. simpl in Hlt. specialize (Hlt Hline).
  apply skip_header_loop_fuel; lia.
Qed.

Lemma skip_header_blank_first doc_file line :
  head (splitlines doc_file) = Some line →
  strip line = [] →
  ∃ ws, doc_file = ws ++ Tokenize.skip_header doc_file
        ∧ Forall (λ c, isspace c = true) ws.
Proof.
  destruct doc_file as [|c f]; [done|].
  rewrite splitlines_readline. intros Hhead Hblank.
  rewrite skip_header_unfold.
  pose proof (readline_app (c :: f)) as Happ.
  destruct (readline (c :: f)) as [line0 rest].
  cbn [head fst snd] in *. injection Hhead as ->.
  rewrite Hblank. exists line. split; [done|]. by apply strip_nil_blank.
Qed.

Lemma skip_header_no_blank doc_file :
  Forall (λ line, strip line ≠ []) (splitlines doc_file) →
  Tokenize.skip_header doc_file = [].
Proof.
  remember (length doc_file) as n eqn:Hn. revert doc_file Hn.
  induction n as [n IH] using lt_wf_ind. intros doc_file Hn Hlines.
  destruct doc_file as [|c f]; [done|].
  rewrite splitlines_readline in Hlines.
  rewrite skip_header_unfold.
  pose proof (readline_rest_shorter (c :: f)) as Hlt.
  destruct (readline (c :: f)) as [line rest].
  cbn [fst snd] in *. apply Forall_cons in Hlines as [Hline Hrest].
  destruct (strip line) eqn:Hs; [done|].
  eapply IH; [|done..]. subst n. apply Hlt. by intros ->.
Qed.

Lemma lstrip_leading ws s :
  Forall (λ c, isspace c = true) ws → lstrip (ws ++ s) = lstrip s.
Proof.
  unfold lstrip. induction 1 as [|c ws Hc _ IH]; simpl; [done|].
  by rewrite Hc.
Qed.

Lemma strip_leading ws s :
  Forall (λ c, isspace c = true) ws → strip (ws ++ s) = strip s.
Proof. intros Hws. unfold strip. by rewrite lstrip_leading. Qed.

Lemma split_ignores_leading_space : ignores_leading_space Tokenize.split.
Proof.
  intros ws f Hws. unfold Tokenize.split, read, str_split. simpl.
  by apply split_acc_spaces_nil.
Qed.

Lemma simple_ignores_leading_space str_lower ci_eq splitter :
  ignores_leading_space splitter →
  ignores_leading_space (Tokenize.simple str_lower ci_eq splitter).
Proof. intros Hs ws f Hws. unfold Tokenize.simple. by rewrite Hs. Qed.

Lemma html_ignores_leading_space ci_eq tokenizer :
  ignores_leading_space (Tokenize.html ci_eq tokenizer).
Proof.
  intros ws f Hws. unfold Tokenize.html, read. simpl.
  by rewrite strip_leading.
Qed.

Lemma news_blank_first tokenizer doc_file line :
  ignores_leading_space tokenizer →
  head (splitlines doc_file) = Some line →
  strip line = [] →
  Tokenize.news tokenizer doc_file = tokenizer doc_file.
Proof.
  intros Hign Hhead Hblank.
  destruct (skip_header_blank_first _ _ Hhead Hblank) as (ws & Hdoc & Hws).
  unfold Tokenize.news. rewrite Hdoc at 2. by rewrite Hign.
Qed.

(** ** [html] *)

Lemma suffix_cons_cases {X} (t : list X) c s :
  t `suffix_of` c :: s → t = c :: s ∨ t `suffix_of` s.
Proof.
  intros [k Hk]. destruct k as [|c' k]; [by left|].
  right. injection Hk as _ ->. by exists k.
Qed.

Lemma has_tag_false s t s1 :
  has_tag s = false → t `suffix_of` s → t = 60 :: s1 → 62 ∉ s1.
Proof.
  induction s as [|c s IH]; intros Htag Hsuf ->.
  - by apply suffix_nil_inv in Hsuf.
  - simpl in Htag. apply orb_false_iff in Htag as [Hhere Hrest].
    apply suffix_cons_inv in Hsuf as [[= <- <-]|Hsuf].
    + simpl in Hhere. intros Hin%list_elem_of_In.
      assert (existsb (N.eqb 62) s1 = true) as Hex; [|congruence].
      apply existsb_exists. exists 62. by rewrite N.eqb_refl.
    + by apply IH.
Qed.

Lemma has_tag_suffix s t :
  has_tag s = false → t `suffix_of` s → has_tag t = false.
Proof.
  induction s as [|c s IH]; intros Htag Hsuf.
  - by apply suffix_nil_inv in Hsuf as ->.
  - apply suffix_cons_cases in Hsuf as [->|Hsuf]; [done|].
    simpl in Htag. apply orb_false_iff in Htag as [_ Hrest]. by apply IH.
Qed.

Lemma existsb_app_false {X} (p : X → bool) l1 l2 :
  existsb p (l1 ++ l2) = false → existsb p l1 = false.
Proof. rewrite existsb_app. by intros [? ?]%orb_false_iff. Qed.

Lemma has_tag_prefix s1 s2 : has_tag (s1 ++ s2) = false → has_tag s1 = false.
Proof.
  induction s1 as [|c s1 IH]; simpl; [done|].
  intros [Hhere Hrest]%orb_false_iff.
  rewrite IH by done. rewrite orb_false_r.
  apply andb_false_iff in Hhere as [->|Hex]; [done|].
  apply existsb_app_false in Hex. rewrite Hex. apply andb_false_r.
Qed.

Lemma has_tag_strip s : has_tag s = false → has_tag (strip s) = false.
Proof.
  intros Htag. destruct (strip_split s) as (ws1 & ws2 & Hs & _ & _).
  rewrite Hs in Htag.
  apply (has_tag_suffix _ (strip s ++ ws2)) in Htag; [|by apply suffix_app_r].
  by apply has_tag_prefix in Htag.
Qed.

Lemma has_substr_false pat s t :
  has_substr pat s = false → t `suffix_of` s → ¬ pat `prefix_of` t.
Proof.
  induction s as [|c s IH]; intros Hsub Hsuf.
  - apply suffix_nil_inv in Hsuf as ->. simpl in Hsub.
    rewrite orb_false_r in Hsub. by apply bool_decide_eq_false in Hsub.
  - simpl in Hsub. apply orb_false_iff in Hsub as [Hhere Hrest].
    apply suffix_cons_cases in Hsuf as [->|Hsuf].
    + by apply bool_decide_eq_false in Hhere.
    + by apply IH.
Qed.

Lemma has_substr_suffix pat s t :
  has_substr pat s = false → t `suffix_of` s → has_substr pat t = false.
Proof.
  induction s as [|c s IH]; intros Hsub Hsuf.
  - by apply suffix_nil_inv in Hsuf as ->.
  - apply suffix_cons_cases in Hsuf as [->|Hsuf]; [done|].
    simpl in Hsub. apply orb_false_iff in Hsub as [_ Hrest]. by apply IH.
Qed.

Lemma has_substr_prefix pat s1 s2 :
  has_substr pat (s1 ++ s2) = false → has_substr pat s1 = false.
Proof.
  induction s1 as [|c s1 IH].
  - rewrite app_nil_l. intros Hsub. simpl. rewrite orb_false_r.
    apply bool_decide_eq_false. intros [k Hk].
    symmetry in Hk. apply app_eq_nil in Hk as [-> _].
    assert (has_substr [] s2 = true) as Hyes; [|congruence].
    destruct s2; cbn [has_substr];
      by rewrite bool_decide_eq_true_2 by apply prefix_nil.
  - simpl. intros [Hhere Hrest]%orb_false_iff.
    rewrite IH by done. rewrite orb_false_r.
    apply bool_decide_eq_false. apply bool_decide_eq_false in Hhere.
    intros Hpre. apply Hhere. by apply (prefix_app_r _ (c :: s1) s2).
Qed.

Lemma has_substr_strip pat s :
  has_substr pat s = false → has_substr pat (strip s) = false.
Proof.
  intros Hsub. destruct (strip_split s) as (ws1 & ws2 & Hs & _ & _).
  rewrite Hs in Hsub.
  apply (has_substr_suffix _ _ (strip s ++ ws2)) in Hsub;
    [|by apply suffix_app_r].
  by apply has_substr_prefix in Hsub.
Qed.

Section html_facts.

Import Re.
Variable ci_eq : codepoint → codepoint → bool.

(** A pattern followed by a literal: the literal occurs in the text. *)
Lemma rmatch_then_lit ci r t s g k x :
  rmatch ci_eq ci r s g (λ s1 g1, rmatch ci_eq ci (Lit false t) s1 g1 k)
    = Some x →
  ∃ a b, s = a ++ t ++ b.
Proof.
  intros (s1 & g1 & [a ->] & (b & -> & _)%rmatch_lit)%rmatch_suffix.
  by exists a, b.
Qed.

Lemma rmatch_cat ci r1 r2 s g k :
  rmatch ci_eq ci (Cat r1 r2) s g k
  = rmatch ci_eq ci r1 s g (λ s1 g1, rmatch ci_eq ci r2 s1 g1 k).
Proof. reflexivity. Qed.

Lemma tag_match ci s :
  is_Some (re_match ci_eq ci Tokenize.tag s) →
  ∃ s1, s = 60 :: s1 ∧ 62 ∈ s1.
Proof.
  intros [x Hx]. unfold re_match, Tokenize.tag in Hx.
  rewrite rmatch_cat in Hx. apply rmatch_lit in Hx as (s1 & -> & Hx).
  rewrite rmatch_cat in Hx. apply rmatch_then_lit in Hx as (a & b & ->).
  exists (a ++ py ">" ++ b). split; [done|].
  change (py ">") with [62]. set_solver.
Qed.

Lemma comment_match ci s :
  is_Some (re_match ci_eq ci Tokenize.comment s) →
  ∃ s1, s = 60 :: s1 ∧ 62 ∈ s1.
Proof.
  intros [x Hx]. unfold re_match, Tokenize.comment in Hx.
  rewrite rmatch_cat in Hx. apply rmatch_lit in Hx as (s1 & -> & Hx).
  rewrite rmatch_cat in Hx.
  apply rmatch_suffix in Hx as (s2 & g2 & [a ->] & Hx).
  rewrite rmatch_cat in Hx. apply rmatch_lit in Hx as (s3 & -> & _).
  change (py "<!--") with [60; 33; 45; 45].
  change (py "-->") with [45; 45; 62].
  eexists. split; [reflexivity|]. set_solver.
Qed.

Lemma script_or_style_match ci s :
  is_Some (re_match ci_eq ci Tokenize.script_or_style s) →
  ∃ s1, s = 60 :: s1 ∧ 62 ∈ s1.
Proof.
  intros [x Hx]. unfold re_match, Tokenize.script_or_style in Hx.
  rewrite rmatch_cat in Hx. apply rmatch_lit in Hx as (s1 & -> & Hx).
  rewrite rmatch_cat in Hx.
  apply rmatch_suffix in Hx as (s2 & g2 & [a ->] & Hx).
  rewrite rmatch_cat in Hx.
  apply rmatch_suffix in Hx as (s3 & g3 & [b ->] & Hx).
  rewrite rmatch_cat in Hx. apply rmatch_lit in Hx as (s4 & -> & _).
  change (py "<") with [60]. change (py ">") with [62].
  eexists. split; [reflexivity|]. set_solver.
Qed.

Lemma re_match_suffix ci r s rest :
  re_match ci_eq ci r s = Some rest → rest `suffix_of` s.
Proof.
  intros (s' & g' & Hsuf & [= <-])%rmatch_suffix. done.
Qed.

Lemma re_match_lit_cat ci t r s rest :
  re_match ci_eq ci (Cat (Lit false t) r) s = Some rest →
  ∃ s1, s = t ++ s1 ∧ rest `suffix_of` s1.
Proof.
  unfold re_match. rewrite rmatch_cat.
  intros (s1 & -> & Hrest%re_match_suffix)%rmatch_lit. by exists s1.
Qed.

(** Every match of a pattern of the tokenizers takes at least one
    character, as [sub_from] supposes. *)
Lemma tokenizer_patterns_consume ci r s rest :
  r ∈ [Tokenize.not_az; Tokenize.script_or_style; Tokenize.comment;
       Tokenize.tag; Tokenize.nbsp; Tokenize.two_spaces] →
  re_match ci_eq ci r s = Some rest →
  (length rest < length s)%nat.
Proof.
  intros Hr Hm.
  repeat (apply elem_of_cons in Hr as [->|Hr]).
  - unfold re_match, Tokenize.not_az in Hm. simpl in Hm.
    destruct s as [|c s]; [done|].
    destruct ((97 <=? c) && (c <=? 122)); [done|].
    injection Hm as <-. simpl. lia.
  - apply re_match_lit_cat in Hm as (s1 & -> & [k ->]).
    rewrite !length_app. simpl. lia.
  - apply re_match_lit_cat in Hm as (s1 & -> & [k ->]).
    rewrite !length_app. simpl. lia.
  - apply re_match_lit_cat in Hm as (s1 & -> & [k ->]).
    rewrite !length_app. simpl. lia.
  - unfold Tokenize.nbsp in Hm. rewrite re_match_lit in Hm.
    case_decide as Hpre; [|done]. destruct Hpre as [k ->].
    injection Hm as <-. rewrite length_drop, length_app. simpl. lia.
  - unfold Tokenize.two_spaces in Hm. rewrite re_match_lit in Hm.
    case_decide as Hpre; [|done]. destruct Hpre as [k ->].
    injection Hm as <-. rewrite length_drop, length_app. simpl. lia.
  - by apply elem_of_nil in Hr.
Qed.

(** On a text without tags the three tag-stripping substitutions find
    nothing to replace. *)
Lemma re_sub_no_tag ci r repl s :
  (∀ t, is_Some (re_match ci_eq ci r t) → ∃ s1, t = 60 :: s1 ∧ 62 ∈ s1) →
  has_tag s = false →
  re_sub ci_eq ci r repl s = s.
Proof.
  intros Hr Htag. apply sub_from_no_match. intros t Hsuf.
  destruct (re_match ci_eq ci r t) as [x|] eqn:Hm; [|done].
  destruct (Hr t) as (s1 & -> & Hin); [by eexists|].
  by destruct (has_tag_false s _ s1 Htag Hsuf eq_refl).
Qed.

Lemma re_sub_no_substr ci pat repl s :
  has_substr pat s = false →
  re_sub ci_eq ci (Lit false pat) repl s = s.
Proof.
  intros Hsub. apply sub_from_no_match. intros t Hsuf.
  rewrite re_match_lit. rewrite decide_False; [done|].
  by eapply has_substr_false.
Qed.

Lemma sub_from_cons ci r repl c s :
  sub_from ci_eq ci r repl 0 (c :: s) =
    match re_match ci_eq ci r (c :: s) with
    | Some rest =>
        match (length (c :: s) - length rest)%nat with
        | O => c :: sub_from ci_eq ci r repl 0 s
        | S n => repl ++ sub_from ci_eq ci r repl n s
        end
    | None => c :: sub_from ci_eq ci r repl 0 s
    end.
Proof. reflexivity. Qed.

Lemma sub_from_two_spaces_hit ci s :
  sub_from ci_eq ci Tokenize.two_spaces [SP] 0 (SP :: SP :: s)
  = SP :: sub_from ci_eq ci Tokenize.two_spaces [SP] 0 s.
Proof.
  rewrite sub_from_cons. unfold Tokenize.two_spaces at 1.
  rewrite re_match_lit.
  rewrite decide_True by (by exists s).
  change (drop (length [SP; SP]) (SP :: SP :: s)) with s.
  replace (length (SP :: SP :: s) - length s)%nat with 2%nat
    by (simpl; lia).
  reflexivity.
Qed.

Lemma sub_from_two_spaces_miss ci c s :
  ¬ [SP; SP] `prefix_of` c :: s →
  sub_from ci_eq ci Tokenize.two_spaces [SP] 0 (c :: s)
  = c :: sub_from ci_eq ci Tokenize.two_spaces [SP] 0 s.
Proof.
  intros Hno. rewrite sub_from_cons. unfold Tokenize.two_spaces at 1.
  rewrite re_match_lit. by rewrite decide_False.
Qed.

(** Replacing two spaces by one does not change the words of a text. *)
Lemma split_acc_two_spaces ci s : ∀ w,
  split_acc w (re_sub ci_eq ci Tokenize.two_spaces [SP] s) = split_acc w s.
Proof.
  unfold re_sub.
  remember (length s) as n eqn:Hn. revert s Hn.
  induction n as [n IH] using lt_wf_ind. intros s Hn w.
  destruct s as [|c s]; [done|].
  destruct (decide ([SP; SP] `prefix_of` c :: s)) as [[s' Hs]|Hno].
  - injection Hs as -> ->. rewrite sub_from_two_spaces_hit.
    cbn [split_acc]. change (isspace SP) with true. cbn iota.
    rewrite (IH (length s')) by (simpl in Hn; lia || done).
    done.
  - rewrite sub_from_two_spaces_miss by done.
    cbn [split_acc]. simpl in Hn.
    destruct (isspace c); by rewrite (IH (length s)) by (lia || done).
Qed.

Lemma str_split_two_spaces ci s :
  str_split (re_sub ci_eq ci Tokenize.two_spaces [SP] s) = str_split s.
Proof. apply split_acc_two_spaces. Qed.

(** What [html] hands to its tokenizer has the words of the source, when
    the source has no tag and no [&nbsp;]. *)
Lemma html_plain_text tokenizer doc_file :
  has_tag doc_file = false →
  has_substr (py "&nbsp;") doc_file = false →
  ∃ text, Tokenize.html ci_eq tokenizer doc_file = tokenizer (StringIO text)
          ∧ str_split text = str_split doc_file.
Proof.
  intros Htag%has_tag_strip Hsub%has_substr_strip.
  eexists. split; [reflexivity|]. cbn [read fst].
  rewrite (re_sub_no_tag true Tokenize.script_or_style)
    by (done || apply script_or_style_match).
  rewrite (re_sub_no_tag false Tokenize.comment)
    by (done || apply comment_match).
  rewrite (re_sub_no_tag false Tokenize.tag) by (done || apply tag_match).
  unfold Tokenize.nbsp. rewrite re_sub_no_substr by done.
  by rewrite str_split_strip, !str_split_two_spaces, str_split_strip.
Qed.

End html_facts.

Lemma ascii_lower_az s :
  Forall (λ c, is_az c = true) s → Tokenize.ascii_lower s = s.
Proof.
  induction 1 as [|c s Hc _ IH]; [done|].
  unfold Tokenize.ascii_lower in *. simpl. rewrite IH. f_equal.
  unfold Tokenize.ascii_lower_char, is_az in *.
  apply andb_true_iff in Hc as [H1%N.leb_le H2%N.leb_le].
  destruct (N.leb_spec 65 c), (N.leb_spec c 90); simpl; try done; lia.
Qed.

Lemma simple_idempotent_witness :
  (∀ s, Forall (λ c, is_az c = true) s → Tokenize.ascii_lower s = s)
  ∧ [SP] ≠ []
  ∧ Forall (λ c, isspace c = true) [SP]
  ∧ Tokenize.simple_a Tokenize.split
      (StringIO (str_join [SP]
         (Tokenize.simple_a Tokenize.split (py "Hello, World! 42 it's"))))
    = Tokenize.simple_a Tokenize.split (py "Hello, World! 42 it's").
Proof.
  split; [exact ascii_lower_az|].
  split; [discriminate|].
  split; [by repeat constructor|].
  apply (simple_idempotent Tokenize.ascii_lower Tokenize.ascii_ci_eq [SP]
           (py "Hello, World! 42 it's")).
  - exact ascii_lower_az.
  - discriminate.
  - by repeat constructor.
Defined.

(** C7, as stated: a counterexample. With [news] itself as the inner
    tokenizer, the document whose lines are an empty line, [header], an
    empty line and [body] has a blank first line; [news] skips that line
    and its inner tokenizer skips [header] as a header, whereas the inner
    tokenizer on the whole document skips only the first line. *)
Lemma news_empty_header_counterexample :
  let inner := Tokenize.news (Tokenize.simple_a Tokenize.split) in
  let doc := [LF] ++ py "header" ++ [LF; LF] ++ py "body" in
  head (splitlines doc) = Some [LF]
  ∧ strip [LF] = []
  ∧ Tokenize.news inner doc = [py "body"]
  ∧ inner doc = [py "header"; py "body"]
  ∧ Tokenize.news inner doc ≠ inner doc.
Proof. vm_compute. repeat split; discriminate. Qed.

(** C7, amended. For a document whose first line is blank, [news] over an
    inner tokenizer that does not see white space at the front of its
    source returns what that tokenizer returns on the whole document;
    the default [simple], [split] and [html] are such tokenizers. *)
Theorem news_empty_header
    (str_lower : str → str) (ci_eq : codepoint → codepoint → bool)
    (tokenizer : Tokenize.Tokenizer) (doc_file : TextIO) (line : str) :
  head (splitlines doc_file) = Some line →
  strip line = [] →
  (ignores_leading_space tokenizer →
     Tokenize.news tokenizer doc_file = tokenizer doc_file)
  ∧ (let simple := Tokenize.simple str_lower ci_eq Tokenize.split in
     Tokenize.news simple doc_file = simple doc_file)
  ∧ Tokenize.news Tokenize.split doc_file = Tokenize.split doc_file
  ∧ Tokenize.news (Tokenize.html ci_eq tokenizer) doc_file
    = Tokenize.html ci_eq tokenizer doc_file.
Proof.
  intros Hhead Hblank. repeat split.
  - intros Hign. by eapply news_blank_first.
  - eapply news_blank_first; [|done..].
    apply simple_ignores_leading_space, split_ignores_leading_space.
  - eapply news_blank_first; [|done..]. apply split_ignores_leading_space.
  - eapply news_blank_first; [|done..]. apply html_ignores_leading_space.
Qed.

Lemma news_empty_header_witness :
  let doc := [SP; LF] ++ py "Body text" ++ [LF] in
  let simple := Tokenize.simple_a Tokenize.split in
  head (splitlines doc) = Some [SP; LF]
  ∧ strip [SP; LF] = []
  ∧ Tokenize.news simple doc = simple doc.
Proof.
  intros doc simple.
  assert (head (splitlines doc) = Some [SP; LF]) as Hhead by reflexivity.
  assert (strip [SP; LF] = []) as Hblank by reflexivity.
  split; [exact Hhead|]. split; [exact Hblank|].
  exact (proj1 (proj2
    (news_empty_header Tokenize.ascii_lower Tokenize.ascii_ci_eq
       Tokenize.split doc [SP; LF] Hhead Hblank))).
Defined.

(** C9. A document without a blank line is all header: the header scan
    of [news] reads it to its end, the inner tokenizer gets the exhausted
    source, and [news] returns no token. *)
Theorem news_no_blank_line
    (str_lower : str → str) (ci_eq : codepoint → codepoint → bool)
    (doc_file : TextIO) :
  Forall (λ line, strip line ≠ []) (splitlines doc_file) →
  Tokenize.skip_header doc_file = []
  ∧ (∀ tokenizer, Tokenize.news tokenizer doc_file = tokenizer [])
  ∧ Tokenize.news (Tokenize.simple str_lower ci_eq Tokenize.split) doc_file
    = [].
Proof.
  intros Hlines%skip_header_no_blank. unfold Tokenize.news.
  rewrite Hlines. done.
Qed.

Lemma news_no_blank_line_witness :
  let doc := py "From: a" ++ [LF] ++ py "Subject: b" ++ [LF] ++ py "text" in
  Forall (λ line, strip line ≠ []) (splitlines doc)
  ∧ Tokenize.news (Tokenize.simple_a Tokenize.split) doc = [].
Proof.
  intros doc.
  assert (Forall (λ line, strip line ≠ []) (splitlines doc)) as Hlines.
  { vm_compute. repeat constructor; discriminate. }
  split; [exact Hlines|].
  exact (proj2 (proj2
    (news_no_blank_line Tokenize.ascii_lower Tokenize.ascii_ci_eq doc Hlines))).
Defined.

(** C8, as stated: a counterexample. The text [a&nbsp;b] has no tag, yet
    [html] turns the entity into a space and finds two tokens, whereas
    [simple] finds one. *)
Lemma html_plain_text_counterexample :
  let doc := py "a&nbsp;b" in
  has_tag doc = false
  ∧ Tokenize.html_a (Tokenize.simple_a Tokenize.split) doc = [py "a"; py "b"]
  ∧ Tokenize.simple_a Tokenize.split doc = [py "anbspb"]
  ∧ Tokenize.html_a (Tokenize.simple_a Tokenize.split) doc
    ≠ Tokenize.simple_a Tokenize.split doc.
Proof. vm_compute. repeat split; discriminate. Qed.

(** C8, amended. On a text with no tag and no entity [&nbsp;], the
    tag-stripping steps of [html] leave the words of the text unchanged,
    and [html] returns the tokens that [simple] returns. *)
Theorem html_plain_text_as_simple
    (str_lower : str → str) (ci_eq : codepoint → codepoint → bool)
    (doc_file : TextIO) :
  has_tag doc_file = false →
  has_substr (py "&nbsp;") doc_file = false →
  let simple := Tokenize.simple str_lower ci_eq Tokenize.split in
  Tokenize.html ci_eq simple doc_file = simple doc_file.
Proof.
  intros Htag Hsub simple.
  destruct (html_plain_text ci_eq simple doc_file Htag Hsub)
    as (text & -> & Hsplit).
  unfold simple, Tokenize.simple, Tokenize.split, StringIO, read. simpl.
  by rewrite Hsplit.
Qed.

Lemma html_plain_text_as_simple_witness :
  let doc := py "  Some  plain   text, 1 < 2 &amp; more " in
  has_tag doc = false
  ∧ has_substr (py "&nbsp;") doc = false
  ∧ Tokenize.html_a (Tokenize.simple_a Tokenize.split) doc
    = Tokenize.simple_a Tokenize.split doc.
Proof.
  intros doc.
  assert (has_tag doc = false) as Htag by (vm_compute; reflexivity).
  assert (has_substr (py "&nbsp;") doc = false) as Hsub
    by (vm_compute; reflexivity).
  split; [exact Htag|]. split; [exact Hsub|].
  exact (html_plain_text_as_simple Tokenize.ascii_lower Tokenize.ascii_ci_eq
           doc Htag Hsub).
Defined.

(** ** The anchor converter *)

Lemma mapM_Ok {X Y} (f : X → result Y) (l : list X) (k : list Y) :
  Forall2 (λ x y, f x = Ok y) l k → mapM f l = Ok k.
Proof.
  induction 1 as [|x y l k Hxy _ IH]; [done|].
  cbn [mapM]. rewrite Hxy. cbn. rewrite IH. done.
Qed.

Lemma mapM_Ok_inv {X Y} (f : X → result Y) (l : list X) (k : list Y) :
  mapM f l = Ok k → Forall2 (λ x y, f x = Ok y) l k.
Proof.
  revert k. induction l as [|x l IH]; intros k.
  - intros [= <-]. constructor.
  - cbn [mapM]. destruct (f x) as [y|e] eqn:Hx; [|done]. cbn.
    destruct (mapM f l) as [k'|e] eqn:Hl; [|done]. cbn.
    intros [= <-]. constructor; [done|]. by apply IH.
Qed.

Lemma tuplize_seq conversion l :
  Util.tuplize conversion (PList l)
  = PTuple <$> mapM (Util.tuplize conversion) l.
Proof. reflexivity. Qed.

Lemma index_from_Some i vocab term j :
  Server.index_from i vocab term = Some j →
  (i ≤ j)%nat ∧ vocab !! (j - i)%nat = Some term.
Proof.
  revert i. induction vocab as [|t vocab IH]; intros i; simpl; [done|].
  case_decide as Ht.
  - intros [= <-]. rewrite Nat.sub_diag. by subst.
  - intros [Hle Hj]%IH. split; [lia|].
    replace (j - i)%nat with (S (j - S i)) by lia. done.
Qed.

Lemma index_from_None i vocab term :
  Server.index_from i vocab term = None ↔ term ∉ vocab.
Proof.
  revert i. induction vocab as [|t vocab IH]; intros i; simpl.
  - split; [|done]. intros _. apply not_elem_of_nil.
  - case_decide as Ht.
    + subst t. split; [done|]. intros Hnot. destruct Hnot. by left.
    + rewrite IH, not_elem_of_cons.
      split; [by intros ?; split|by intros [_ ?]].
Qed.

Lemma list_getitem_lookup vocab (i : nat) term :
  vocab !! i = Some term →
  Server.list_getitem vocab (Z.of_nat i) = Ok term.
Proof.
  intros Hi. unfold Server.list_getitem. cbv zeta.
  assert ((Z.of_nat i <? 0)%Z = false) as Hpos by (apply Z.ltb_ge; lia).
  by rewrite !Hpos, Nat2Z.id, Hi.
Qed.

(** A term of the vocabulary is converted to a position that holds it. *)
Lemma convert_anchor_term dataset term :
  term ∈ Server.vocab dataset →
  ∃ i : nat,
    Server.convert_anchor dataset (PStr term) = Ok (PInt (Z.of_nat i))
    ∧ Server.vocab dataset !! i = Some term.
Proof.
  intros Hin. unfold Server.convert_anchor, Server.list_index.
  destruct (Server.index_from 0 (Server.vocab dataset) term) as [i|] eqn:Hi.
  - exists i. split; [done|].
    apply index_from_Some in Hi as [_ Hi]. by rewrite Nat.sub_0_r in Hi.
  - by apply index_from_None in Hi.
Qed.

Lemma reindex_token_group dataset group :
  Forall (λ term, term ∈ Server.vocab dataset) group →
  ∃ indices,
    mapM (Util.tuplize (λ t, Server.convert_anchor dataset t))
      (map PStr group)
      = Ok (map (λ i, PInt (Z.of_nat i)) indices)
    ∧ Forall2 (λ i term, Server.vocab dataset !! i = Some term) indices group.
Proof.
  induction 1 as [|term group Hterm _ (indices & Hmap & Hall)].
  - by exists [].
  - destruct (convert_anchor_term _ _ Hterm) as (i & Hi & Hlook).
    exists (i :: indices). split; [|by constructor].
    cbn [map mapM Util.tuplize]. rewrite Hi. cbn. rewrite Hmap. done.
Qed.

Lemma reindex_token_anchors dataset groups :
  Forall (Forall (λ term, term ∈ Server.vocab dataset)) groups →
  ∃ indices,
    Server.reindex_anchors dataset (token_anchors groups)
      = Ok (index_anchors indices)
    ∧ Forall2 (Forall2 (λ i term, Server.vocab dataset !! i = Some term))
        indices groups.
Proof.
  unfold Server.reindex_anchors, token_anchors, index_anchors.
  rewrite tuplize_seq. intros Hgroups.
  enough (∃ indices,
    mapM (Util.tuplize (λ t, Server.convert_anchor dataset t))
      (map (λ group, PList (map PStr group)) groups)
    = Ok (map (λ group, PTuple (map (λ i, PInt (Z.of_nat i)) group)) indices)
    ∧ Forall2 (Forall2 (λ i term, Server.vocab dataset !! i = Some term))
        indices groups) as (indices & -> & Hall) by by exists indices.
  induction Hgroups as [|group groups Hgroup _ (indices & Hmap & Hall)].
  - by exists [].
  - destruct (reindex_token_group _ _ Hgroup) as (ixs & Hixs & Hlook).
    exists (ixs :: indices). split; [|by constructor].
    cbn [map mapM]. rewrite tuplize_seq, Hixs. cbn. rewrite Hmap. done.
Qed.

Lemma tokenify_index_anchors dataset indices groups :
  Forall2 (Forall2 (λ i term, Server.vocab dataset !! i = Some term))
    indices groups →
  Server.tokenify_anchors dataset (index_anchors indices) = Ok groups.
Proof.
  intros Hall. unfold Server.tokenify_anchors, index_anchors. cbn.
  apply mapM_Ok. apply Forall2_fmap_l.
  eapply Forall2_impl; [done|]. intros ixs group Hgroup. cbn.
  apply mapM_Ok. apply Forall2_fmap_l.
  eapply Forall2_impl; [done|]. intros i term Hi. cbn.
  by apply list_getitem_lookup.
Qed.

(** C2. [convert_anchor] returns an integer anchor as it is, and raises
    the error of the lookup for a string that is not in the vocabulary. *)
Theorem convert_anchor_index_or_lookup (dataset : Server.Dataset) :
  (∀ i, Server.convert_anchor dataset (PInt i) = Ok (PInt i))
  ∧ (∀ term,
       term ∉ Server.vocab dataset →
       Server.convert_anchor dataset (PStr term) = Raise ValueError).
Proof.
  split; [done|]. intros term Hterm%(index_from_None 0).
  unfold Server.convert_anchor, Server.list_index. by rewrite Hterm.
Qed.

Lemma convert_anchor_index_or_lookup_witness :
  let dataset := {| Server.vocab := [py "a"; py "b"; py "c"] |} in
  (py "z" ∉ Server.vocab dataset)
  ∧ Server.convert_anchor dataset (PStr (py "z")) = Raise ValueError
  ∧ Server.convert_anchor dataset (PInt 7) = Ok (PInt 7).
Proof.
  intros dataset.
  assert (py "z" ∉ Server.vocab dataset) as Hout.
  { intros Hin%list_elem_of_In. vm_compute in Hin.
    repeat destruct Hin as [Hin|Hin]; try discriminate Hin. exact Hin. }
  split; [exact Hout|]. split.
  - exact (proj2 (convert_anchor_index_or_lookup dataset) (py "z") Hout).
  - exact (proj1 (convert_anchor_index_or_lookup dataset) 7%Z).
Defined.

(** ** Topic summaries *)

Lemma elem_of_rev {X} (x : X) l : x ∈ rev l ↔ x ∈ l.
Proof. rewrite !list_elem_of_In. symmetry. apply in_rev. Qed.

Lemma elem_of_rev_1 {X} (x : X) l : x ∈ rev l → x ∈ l.
Proof. by rewrite elem_of_rev. Qed.

Lemma StronglySorted_rev {X} (R : relation X) l :
  StronglySorted R l → StronglySorted (flip R) (rev l).
Proof.
  induction 1 as [|x l Hl IH Hx]; simpl; [constructor|].
  apply StronglySorted_app_2; [|done|by repeat constructor].
  intros y x' Hy%elem_of_rev_1 ->%list_elem_of_singleton.
  rewrite Forall_forall in Hx. by apply Hx.
Qed.

Lemma list_getitem_nat vocab (i : nat) term :
  Server.list_getitem vocab (Z.of_nat i) = Ok term → vocab !! i = Some term.
Proof.
  unfold Server.list_getitem. cbv zeta.
  assert ((Z.of_nat i <? 0)%Z = false) as Hpos by (apply Z.ltb_ge; lia).
  rewrite !Hpos, Nat2Z.id. by destruct (vocab !! i) as [t|]; intros [= ->].
Qed.

Section topic_facts.

Context {W : Type} (wle : relation W).
Variable get_newsgroups : Server.Dataset.
Variable json_loads : str → result pyval.
Variable argsort : list W → list nat.
Variable gramschmidt_anchors : Server.Dataset → nat → nat → pyval.
Variable recover_topics : Server.Dataset → pyval → Server.ndarray W.

Hypothesis Hargsort : argsort_spec wle argsort.

Abbreviation top_words := (Server.top_words argsort).

Lemma length_column (topics : Server.ndarray W) k :
  length (Server.column topics k) = Server.shape0 topics.
Proof. unfold Server.column. by rewrite length_map, length_seq. Qed.

Lemma argsort_split col :
  argsort col
  = take (length (argsort col) - 10) (argsort col)
    ++ Server.last_n 10 (argsort col).
Proof. unfold Server.last_n. by rewrite take_drop. Qed.

Lemma top_words_length topics k :
  length (top_words topics k) = Nat.min 10 (Server.shape0 topics).
Proof.
  unfold Server.top_words, Server.reversed, Server.last_n.
  rewrite length_rev, length_drop.
  destruct (Hargsort (Server.column topics k)) as [Hperm _].
  rewrite (Permutation_length Hperm), length_seq, length_column. lia.
Qed.

Lemma top_words_elem topics k i :
  i ∈ top_words topics k → i ∈ argsort (Server.column topics k).
Proof.
  unfold Server.top_words, Server.reversed.
  intros Hi%elem_of_rev_1.
  rewrite argsort_split. apply elem_of_app. by right.
Qed.

Lemma top_words_bound topics k i :
  i ∈ top_words topics k → (i < Server.shape0 topics)%nat.
Proof.
  intros Hi%top_words_elem.
  destruct (Hargsort (Server.column topics k)) as [Hperm _].
  rewrite Hperm in Hi. apply elem_of_seq in Hi.
  rewrite length_column in Hi. lia.
Qed.

Lemma top_words_NoDup topics k : NoDup (top_words topics k).
Proof.
  destruct (Hargsort (Server.column topics k)) as [Hperm _].
  assert (NoDup (argsort (Server.column topics k))) as Hnd.
  { rewrite Hperm. apply NoDup_seq. }
  rewrite argsort_split in Hnd. apply NoDup_app in Hnd as (_ & _ & Hnd).
  unfold Server.top_words, Server.reversed.
  apply NoDup_ListNoDup, List.NoDup_rev. by apply NoDup_ListNoDup.
Qed.

(** The weights do not increase along a summary. *)
Lemma top_words_descending topics k :
  StronglySorted (flip (weight_le wle (Server.column topics k)))
    (top_words topics k).
Proof.
  destruct (Hargsort (Server.column topics k)) as [_ Hsorted].
  rewrite argsort_split in Hsorted.
  apply StronglySorted_app_1_r in Hsorted.
  by apply StronglySorted_rev.
Qed.

(** No term outside a summary weighs more than a term inside. *)
Lemma top_words_highest topics k i j :
  (j < Server.shape0 topics)%nat →
  j ∉ top_words topics k →
  i ∈ top_words topics k →
  weight_le wle (Server.column topics k) j i.
Proof.
  intros Hj Hout Hi.
  destruct (Hargsort (Server.column topics k)) as [Hperm Hsorted].
  assert (j ∈ argsort (Server.column topics k)) as Hin.
  { rewrite Hperm. apply elem_of_seq. rewrite length_column. lia. }
  unfold Server.top_words, Server.reversed in Hout, Hi.
  rewrite elem_of_rev in Hout, Hi.
  rewrite argsort_split in Hin, Hsorted.
  apply elem_of_app in Hin as [Hin|Hin]; [|done].
  by eapply StronglySorted_app_1_elem_of.
Qed.

(** Every summary that [summarize] returns lists the terms of the top
    words of its topic. *)
Lemma summarize_inv dataset topics summaries :
  Server.summarize argsort dataset topics = Ok summaries →
  Forall2 (λ k summary,
             Forall2 (λ word term, Server.vocab dataset !! word = Some term)
               (top_words topics k) summary)
    (seq 0 (Server.shape1 topics)) summaries.
Proof.
  intros Hsum%mapM_Ok_inv.
  eapply Forall2_impl; [done|]. intros k summary Hk%mapM_Ok_inv. cbn in Hk.
  eapply Forall2_impl; [done|]. intros word term. apply list_getitem_nat.
Qed.

(** [summarize] succeeds when the matrix has a row for each term. *)
Lemma summarize_ok dataset topics :
  Server.shape0 topics = length (Server.vocab dataset) →
  ∃ summaries, Server.summarize argsort dataset topics = Ok summaries.
Proof.
  intros Hshape.
  assert (∀ k, ∃ summary,
    mapM (λ word, Server.list_getitem (Server.vocab dataset) (Z.of_nat word))
      (top_words topics k) = Ok summary) as Hone.
  { intros k.
    assert (Forall (λ i, i < length (Server.vocab dataset))%nat
              (top_words topics k)) as Hall.
    { apply Forall_forall. intros i Hi%top_words_bound. lia. }
    induction Hall as [|i l Hi _ [summary IH]]; [by exists []|].
    apply lookup_lt_is_Some_2 in Hi as [term Hterm].
    exists (term :: summary). cbn [mapM].
    rewrite (list_getitem_lookup _ _ _ Hterm). cbn. by rewrite IH. }
  unfold Server.summarize.
  induction (seq 0 (Server.shape1 topics)) as [|k l [summaries IH]];
    [by exists []|].
  destruct (Hone k) as [summary Hk].
  exists (summary :: summaries). cbn [mapM]. rewrite Hk. cbn.
  by rewrite IH.
Qed.

End topic_facts.

(** ** [topic_request] *)

Lemma tuplize_tuple conversion l :
  Util.tuplize conversion (PTuple l)
  = PTuple <$> mapM (Util.tuplize conversion) l.
Proof. reflexivity. Qed.

Lemma reindex_tuple_length dataset l anchors :
  Server.reindex_anchors dataset (PTuple l) = Ok anchors →
  ∃ l', anchors = PTuple l' ∧ length l' = length l.
Proof.
  unfold Server.reindex_anchors. rewrite tuplize_tuple.
  destruct (mapM _ l) as [l'|e] eqn:Hl; [|done]. intros [= <-].
  exists l'. split; [done|].
  apply mapM_Ok_inv, Forall2_length in Hl. done.
Qed.

Lemma tuplize_token_anchors groups :
  Util.tuplize Ok (token_anchors groups) = Ok (token_tuples groups).
Proof.
  unfold token_anchors, token_tuples. rewrite tuplize_seq.
  assert (∀ group, mapM (Util.tuplize Ok) (map PStr group)
                   = Ok (map PStr group)) as Hgroup.
  { induction group as [|t group IH]; [done|].
    cbn [map mapM Util.tuplize]. cbn. by rewrite IH. }
  enough (mapM (Util.tuplize Ok)
            (map (λ group, PList (map PStr group)) groups)
          = Ok (map (λ group, PTuple (map PStr group)) groups)) as ->
    by done.
  induction groups as [|group groups IH]; [done|].
  cbn [map mapM]. rewrite tuplize_seq, Hgroup. cbn. by rewrite IH.
Qed.

Lemma reindex_token_tuples dataset groups :
  Server.reindex_anchors dataset (token_tuples groups)
  = Server.reindex_anchors dataset (token_anchors groups).
Proof.
  unfold Server.reindex_anchors, token_tuples, token_anchors.
  rewrite tuplize_tuple, tuplize_seq. f_equal.
  induction groups as [|group groups IH]; [done|].
  cbn [map mapM]. by rewrite IH.
Qed.

Lemma reindex_index_anchors dataset indices :
  Server.reindex_anchors dataset (index_anchors indices)
  = Ok (index_anchors indices).
Proof.
  unfold Server.reindex_anchors, index_anchors. rewrite tuplize_tuple.
  assert (∀ group : list nat,
    mapM (Util.tuplize (λ t, Server.convert_anchor dataset t))
      (map (λ i, PInt (Z.of_nat i)) group)
    = Ok (map (λ i, PInt (Z.of_nat i)) group)) as Hgroup.
  { induction group as [|i group IH]; [done|].
    cbn [map mapM Util.tuplize Server.convert_anchor]. cbn. by rewrite IH. }
  enough (mapM (Util.tuplize (λ t, Server.convert_anchor dataset t))
            (map (λ group, PTuple (map (λ i, PInt (Z.of_nat i)) group))
               indices)
          = Ok (map (λ group, PTuple (map (λ i, PInt (Z.of_nat i)) group))
                  indices)) as -> by done.
  induction indices as [|group indices IH]; [done|].
  cbn [map mapM]. rewrite tuplize_tuple, Hgroup. cbn. by rewrite IH.
Qed.

(** C1. For a term [t] of the vocabulary, [convert_anchor] gives a
    position that holds [t], and the anchor group of [t] alone, converted
    to indices and back to tokens, is the group of [t] alone again. Groups
    stay groups, in their order, for every sequence of groups of terms of
    the vocabulary. The anchors are given as [topic_request] gives them to
    [reindex_anchors]: as tuples, and as the arrays of a request that
    [tuplize] has made tuples of. The tokens come back as lists. *)
Theorem anchor_round_trip (dataset : Server.Dataset) (t : str) :
  t ∈ Server.vocab dataset →
  (∃ i, Server.convert_anchor dataset (PStr t) = Ok (PInt i)
        ∧ Server.getitem (Server.vocab dataset) (PInt i) = Ok t)
  ∧ Server.reindex_anchors dataset (PTuple [PTuple [PStr t]])
      ≫= Server.tokenify_anchors dataset = Ok [[t]]
  ∧ (∀ groups,
       Forall (Forall (λ term, term ∈ Server.vocab dataset)) groups →
       Server.reindex_anchors dataset (token_tuples groups)
         ≫= Server.tokenify_anchors dataset = Ok groups
       ∧ (Util.tuplize Ok (token_anchors groups)
            ≫= Server.reindex_anchors dataset)
           ≫= Server.tokenify_anchors dataset = Ok groups).
Proof.
  intros Hin.
  assert (∀ groups,
    Forall (Forall (λ term, term ∈ Server.vocab dataset)) groups →
    Server.reindex_anchors dataset (token_tuples groups)
      ≫= Server.tokenify_anchors dataset = Ok groups) as Hgroups.
  { intros groups (indices & Hre & Hall)%reindex_token_anchors.
    rewrite reindex_token_tuples, Hre. cbn.
    by apply tokenify_index_anchors. }
  split; [|split].
  - destruct (convert_anchor_term _ _ Hin) as (i & Hi & Hlook).
    exists (Z.of_nat i). split; [done|]. by apply list_getitem_lookup.
  - apply (Hgroups [[t]]). by repeat constructor.
  - intros groups Hall. split; [by apply Hgroups|].
    rewrite tuplize_token_anchors. cbn. by apply Hgroups.
Qed.

Lemma anchor_round_trip_witness :
  let dataset := {| Server.vocab := [py "a"; py "b"; py "c"] |} in
  py "b" ∈ Server.vocab dataset
  ∧ Server.reindex_anchors dataset (PTuple [PTuple [PStr (py "b")]])
      ≫= Server.tokenify_anchors dataset = Ok [[py "b"]].
Proof.
  intros dataset.
  assert (py "b" ∈ Server.vocab dataset) as Hin.
  { apply list_elem_of_In. vm_compute. auto. }
  split; [exact Hin|].
  exact (proj1 (proj2 (anchor_round_trip dataset (py "b") Hin))).
Defined.

Section request_facts.

Context {W : Type} (wle : relation W).
Variable get_newsgroups : Server.Dataset.
Variable json_loads : str → result pyval.
Variable argsort : list W → list nat.
Variable gramschmidt_anchors : Server.Dataset → nat → nat → pyval.
Variable recover_topics : Server.Dataset → pyval → Server.ndarray W.

Abbreviation topic_request :=
  (Server.topic_request get_newsgroups json_loads argsort
     gramschmidt_anchors recover_topics).
Abbreviation requested_anchors :=
  (Server.requested_anchors get_newsgroups json_loads gramschmidt_anchors).
Abbreviation summarize := (Server.summarize argsort).
Abbreviation get_topics := (Server.get_topics recover_topics).

(** The steps of a request that returns. *)
Lemma topic_request_inv raw_anchors r :
  topic_request raw_anchors = Ok r →
  ∃ requested anchors,
    requested_anchors raw_anchors = Ok requested
    ∧ Server.reindex_anchors get_newsgroups requested = Ok anchors
    ∧ summarize get_newsgroups (get_topics get_newsgroups anchors)
      = Ok (Server.topics r)
    ∧ match raw_anchors with
      | None =>
          ∃ tokens,
            Server.tokenify_anchors get_newsgroups anchors = Ok tokens
            ∧ Server.anchors r = Some tokens
      | Some _ => Server.anchors r = None
      end.
Proof.
  unfold Server.topic_request.
  destruct (requested_anchors raw_anchors) as [requested|e] eqn:Hreq;
    [|done]. cbn.
  destruct (Server.reindex_anchors get_newsgroups requested)
    as [anchors|e] eqn:Hre; [|done]. cbn.
  destruct (summarize _ _) as [summaries|e] eqn:Hsum; [|done]. cbn.
  destruct raw_anchors as [raw|].
  - intros [= <-]. by exists requested, anchors.
  - destruct (Server.tokenify_anchors get_newsgroups anchors)
      as [tokens|e] eqn:Htok; [|done]. cbn.
    intros [= <-]. exists requested, anchors.
    repeat (split; [done|]). by exists tokens.
Qed.

(** The request returns when each of its steps does. *)
Lemma topic_request_ok raw_anchors requested anchors summaries :
  requested_anchors raw_anchors = Ok requested →
  Server.reindex_anchors get_newsgroups requested = Ok anchors →
  summarize get_newsgroups (get_topics get_newsgroups anchors)
    = Ok summaries →
  topic_request raw_anchors =
    match raw_anchors with
    | None =>
        tokens ← Server.tokenify_anchors get_newsgroups anchors;
        Ok {| Server.topics := summaries; Server.anchors := Some tokens |}
    | Some _ => Ok {| Server.topics := summaries; Server.anchors := None |}
    end.
Proof.
  intros Hreq Hre Hsum. unfold Server.topic_request.
  rewrite Hreq. cbn. rewrite Hre. cbn. rewrite Hsum. done.
Qed.

End request_facts.

Lemma top_words_top_ten {W} (wle : relation W) argsort topics k :
  argsort_spec wle argsort →
  top_ten wle (Server.column topics k) (Server.top_words argsort topics k).
Proof.
  intros Hargsort. unfold top_ten. rewrite length_column.
  split; [by eapply top_words_length|].
  split; [by eapply top_words_NoDup|].
  split; [by eapply top_words_bound|].
  split; [by eapply top_words_descending|].
  intros i j. by eapply top_words_highest.
Qed.

(** C3. A topic request answers with one summary for each anchor, and the
    summary of a topic lists the terms of its ten highest-weighted
    positions, the heaviest first, in the order in which [numpy.argsort]
    leaves positions of equal weight; it has at most ten terms and at most
    as many as the vocabulary. [numpy.argsort] and [ankura.recover_topics]
    enter with what they promise. *)
Theorem topic_summaries {W : Type} (wle : relation W)
    (get_newsgroups : Server.Dataset) (json_loads : str → result pyval)
    (argsort : list W → list nat)
    (gramschmidt_anchors : Server.Dataset → nat → nat → pyval)
    (recover_topics : Server.Dataset → pyval → Server.ndarray W)
    (raw_anchors : option str) (supplied : list pyval)
    (r : Server.response) :
  argsort_spec wle argsort →
  recover_topics_spec recover_topics →
  Server.requested_anchors get_newsgroups json_loads gramschmidt_anchors
    raw_anchors = Ok (PTuple supplied) →
  Server.topic_request get_newsgroups json_loads argsort gramschmidt_anchors
    recover_topics raw_anchors = Ok r →
  length (Server.topics r) = length supplied
  ∧ ∃ anchors,
      Server.reindex_anchors get_newsgroups (PTuple supplied) = Ok anchors
      ∧ ∀ k summary,
          Server.topics r !! k = Some summary →
          let topics := Server.get_topics recover_topics get_newsgroups anchors in
          let words := Server.top_words argsort topics k in
          words = Server.reversed
                    (Server.last_n 10 (argsort (Server.column topics k)))
          ∧ top_ten wle (Server.column topics k) words
          ∧ Forall2 (λ word term,
                       Server.vocab get_newsgroups !! word = Some term)
              words summary
          ∧ (length summary ≤ 10)%nat
          ∧ (length summary ≤ length (Server.vocab get_newsgroups))%nat.
Proof.
  intros Hargsort Hrecover Hreq
    (requested & anchors & Hreq' & Hre & Hsum & _)%topic_request_inv.
  rewrite Hreq in Hreq'. injection Hreq' as <-.
  destruct (reindex_tuple_length _ _ _ Hre) as (l' & -> & Hlen).
  destruct (Hrecover get_newsgroups l') as [Hshape0 Hshape1].
  apply summarize_inv in Hsum.
  fold (Server.get_topics recover_topics get_newsgroups (PTuple l'))
    in Hshape0, Hshape1.
  split.
  { rewrite <- (Forall2_length _ _ _ Hsum), length_seq. congruence. }
  exists (PTuple l'). split; [done|]. intros k summary Hk. cbv zeta.
  destruct (Forall2_lookup_r _ _ _ _ _ Hsum Hk) as (k' & Hk' & Hwords).
  apply lookup_seq in Hk' as [-> _]. simpl in Hwords.
  pose proof (top_words_top_ten wle argsort
    (Server.get_topics recover_topics get_newsgroups (PTuple l')) k Hargsort)
    as Htop.
  split; [done|]. split; [done|]. split; [done|].
  destruct Htop as (Hlength & _).
  rewrite <- (Forall2_length _ _ _ Hwords), Hlength, length_column, Hshape0.
  lia.
Qed.

(** C4. Without anchors in the request the default anchors are used and
    the answer holds the topic summaries and those anchors as tokens; with
    anchors in the request the answer holds the topic summaries and no
    anchors. A request with well-formed anchors returns such an answer. *)
Theorem topic_request_answer {W : Type} (wle : relation W)
    (get_newsgroups : Server.Dataset) (json_loads : str → result pyval)
    (argsort : list W → list nat)
    (gramschmidt_anchors : Server.Dataset → nat → nat → pyval)
    (recover_topics : Server.Dataset → pyval → Server.ndarray W) :
  let topic_request :=
    Server.topic_request get_newsgroups json_loads argsort
      gramschmidt_anchors recover_topics in
  let default_anchors :=
    Server.default_anchors get_newsgroups gramschmidt_anchors in
  let summarize anchors :=
    Server.summarize argsort get_newsgroups
      (Server.get_topics recover_topics get_newsgroups anchors) in
  (∀ r, topic_request None = Ok r →
        ∃ anchors tokens,
          Server.reindex_anchors get_newsgroups default_anchors = Ok anchors
          ∧ summarize anchors = Ok (Server.topics r)
          ∧ Server.tokenify_anchors get_newsgroups anchors = Ok tokens
          ∧ Server.anchors r = Some tokens)
  ∧ (∀ raw r, topic_request (Some raw) = Ok r →
        Server.anchors r = None
        ∧ ∃ parsed requested anchors,
            json_loads raw = Ok parsed
            ∧ Util.tuplize Ok parsed = Ok requested
            ∧ Server.reindex_anchors get_newsgroups requested = Ok anchors
            ∧ summarize anchors = Ok (Server.topics r))
  ∧ (argsort_spec wle argsort → recover_topics_spec recover_topics →
     ∀ indices groups,
       default_anchors = index_anchors indices →
       Forall2 (Forall2 (λ i term,
                           Server.vocab get_newsgroups !! i = Some term))
         indices groups →
       ∃ summaries,
         topic_request None
         = Ok {| Server.topics := summaries; Server.anchors := Some groups |})
  ∧ (argsort_spec wle argsort → recover_topics_spec recover_topics →
     ∀ raw groups,
       json_loads raw = Ok (token_anchors groups) →
       Forall (Forall (λ term, term ∈ Server.vocab get_newsgroups)) groups →
       ∃ summaries,
         topic_request (Some raw)
         = Ok {| Server.topics := summaries; Server.anchors := None |}).
Proof.
  intros topic_request default_anchors summarize.
  split; [|split; [|split]].
  - intros r (requested & anchors & Hreq & Hre & Hsum & tokens & Htok & Hr)
      %topic_request_inv.
    injection Hreq as <-. by exists anchors, tokens.
  - intros raw r (requested & anchors & Hreq & Hre & Hsum & Hr)
      %topic_request_inv.
    split; [done|]. cbn in Hreq.
    destruct (json_loads raw) as [parsed|e] eqn:Hjson; [|done].
    by exists parsed, requested, anchors.
  - intros Hargsort Hrecover indices groups Hdefault Hlookup.
    destruct (Hrecover get_newsgroups
      (map (λ group, PTuple (map (λ i, PInt (Z.of_nat i)) group)) indices))
      as [Hshape _].
    destruct (summarize_ok wle argsort Hargsort get_newsgroups _ Hshape)
      as [summaries Hsum].
    exists summaries. unfold topic_request.
    erewrite topic_request_ok; [| |apply reindex_index_anchors|exact Hsum].
    + by rewrite (tokenify_index_anchors _ _ _ Hlookup).
    + cbn. by rewrite <- Hdefault.
  - intros Hargsort Hrecover raw groups Hjson Hgroups.
    destruct (reindex_token_anchors _ _ Hgroups) as (indices & Hre & _).
    destruct (Hrecover get_newsgroups
      (map (λ group, PTuple (map (λ i, PInt (Z.of_nat i)) group)) indices))
      as [Hshape _].
    destruct (summarize_ok wle argsort Hargsort get_newsgroups _ Hshape)
      as [summaries Hsum].
    exists summaries. unfold topic_request.
    erewrite topic_request_ok; [done| | |exact Hsum].
    + cbn. rewrite Hjson. cbn. apply tuplize_token_anchors.
    + by rewrite reindex_token_tuples.
Qed.


Lemma StronglySorted_impl {X} (R R' : relation X) l :
  (∀ x y, R x y → R' x y) → StronglySorted R l → StronglySorted R' l.
Proof.
  intros HR. induction 1 as [|x l _ IH Hx]; constructor; [done|].
  eapply Forall_impl; [done|]. auto.
Qed.

Lemma demo_argsort_spec : argsort_spec Z.le Demo.argsort.
Proof.
  intros col. unfold Demo.argsort. split.
  - apply merge_sort_Permutation.
  - eapply StronglySorted_impl; [|apply StronglySorted_merge_sort].
    + intros i j Hij x y Hx Hy. unfold Demo.lighter, Demo.weight_at in Hij.
      by rewrite Hx, Hy in Hij.
    + intros i j k. unfold Demo.lighter. lia.
    + intros i j. unfold Demo.lighter. lia.
Qed.

Lemma demo_recover_topics_spec : recover_topics_spec Demo.recover_topics.
Proof. by intros dataset l. Qed.

Lemma topic_summaries_witness :
  let raw := Some (py "[[a],[c,b]]") in
  let r := {| Server.topics := [[py "c"; py "b"; py "a"];
                                [py "a"; py "c"; py "b"]];
              Server.anchors := None |} in
  Demo.topic_request raw = Ok r
  ∧ length (Server.topics r) = 2%nat.
Proof.
  intros raw r.
  assert (Demo.topic_request raw = Ok r) as Hr by (vm_compute; reflexivity).
  split; [exact Hr|].
  exact (proj1 (topic_summaries Z.le Demo.dataset Demo.json_loads
    Demo.argsort Demo.gramschmidt_anchors Demo.recover_topics raw
    [PTuple [PStr (py "a")]; PTuple [PStr (py "c"); PStr (py "b")]] r
    demo_argsort_spec demo_recover_topics_spec eq_refl Hr)).
Defined.

Lemma topic_request_answer_witness :
  Demo.topic_request None
  = Ok {| Server.topics := [[py "c"; py "b"; py "a"];
                            [py "a"; py "c"; py "b"]];
          Server.anchors := Some [[py "a"]; [py "c"]] |}
  ∧ ∃ summaries,
      Demo.topic_request (Some (py "[[a],[c,b]]"))
      = Ok {| Server.topics := summaries; Server.anchors := None |}.
Proof.
  split; [vm_compute; reflexivity|].
  apply (proj2 (proj2 (proj2
    (topic_request_answer Z.le Demo.dataset Demo.json_loads Demo.argsort
       Demo.gramschmidt_anchors Demo.recover_topics)))
    demo_argsort_spec demo_recover_topics_spec
    (py "[[a],[c,b]]") [[py "a"]; [py "c"; py "b"]]).
  - vm_compute. reflexivity.
  - repeat constructor.
Defined.

(** ** The two cache levels *)

Section cache_facts.

Import Util.
Context {A V : Type} `{Countable A}.
Variables (fname name : string) (g : fn A V).

Abbreviation stacked := (memoize fname (pickle_cache name g)).

Lemma touches_snoc_Loaded t : touches name (t ++ [Loaded name]) = S (touches name t).
Proof.
  unfold touches. rewrite filter_app, length_app.
  rewrite filter_cons, decide_True by by left. simpl. lia.
Qed.

Lemma touches_snoc_Built t :
  touches name (t ++ [Built name]) = S (touches name t).
Proof.
  unfold touches. rewrite filter_app, length_app.
  rewrite filter_cons, decide_True by by right. simpl. lia.
Qed.

Lemma stacked_hit a w v :
  memo w !! (fname, a) = Some v → stacked a w = (v, w).
Proof. intros Hhit. unfold memoize. by rewrite Hhit. Qed.

Lemma stacked_store_hit a w v :
  memo w !! (fname, a) = None →
  store w !! name = Some (Some v) →
  stacked a w
  = (v, World (<[(fname, a) := v]> (memo w)) (store w)
          (trace w ++ [Loaded name])).
Proof.
  intros Hmiss Hstore. unfold memoize, pickle_cache.
  by rewrite Hmiss, Hstore.
Qed.

(** A call that misses the dictionary consults the persistent level
    once, and the dictionary holds the argument afterwards. *)
Lemma stacked_miss a w :
  builder_frame fname name g →
  memo w !! (fname, a) = None →
  touches name (trace (stacked a w).2) = S (touches name (trace w))
  ∧ ∀ b, memo (stacked a w).2 !! (fname, b) = None
         ↔ b ≠ a ∧ memo w !! (fname, b) = None.
Proof.
  intros Hframe Hmiss. unfold memoize. rewrite Hmiss.
  assert (∀ b v' (m : gmap (string * A) V),
    <[(fname, a) := v']> m !! (fname, b) = None
    ↔ b ≠ a ∧ m !! (fname, b) = None) as Hins.
  { intros b v' m. rewrite lookup_insert_None.
    split; intros [? ?]; split; congruence. }
  unfold pickle_cache.
  destruct (store w !! name) as [[v|]|] eqn:Hstore; cbn -[touches].
  - split; [apply touches_snoc_Loaded|]. intros b. apply Hins.
  - destruct (Hframe a w) as [Hmemo Htouch].
    destruct (g a w) as [v w'] eqn:Hg. cbn -[touches] in *.
    split; [by rewrite touches_snoc_Built, Htouch|].
    intros b. by rewrite Hins, Hmemo.
  - destruct (Hframe a w) as [Hmemo Htouch].
    destruct (g a w) as [v w'] eqn:Hg. cbn -[touches] in *.
    split; [by rewrite touches_snoc_Built, Htouch|].
    intros b. by rewrite Hins, Hmemo.
Qed.

Lemma calls_cons (f : fn A V) a l w :
  (calls f (a :: l) w).2 = (calls f l (f a w).2).2.
Proof.
  cbn [calls]. destruct (f a w) as [v w1]. cbn.
  by destruct (calls f l w1).
Qed.

(** Over a run of calls the persistent level is consulted once for each
    argument that the dictionary did not hold. *)
Lemma stacked_touches l : ∀ w,
  builder_frame fname name g →
  touches name (trace (calls stacked l w).2)
  = (touches name (trace w) + size (fresh fname w l))%nat.
Proof.
  induction l as [|a l IH]; intros w Hframe.
  - unfold fresh. cbn. rewrite size_empty. lia.
  - rewrite calls_cons.
    destruct (memo w !! (fname, a)) as [v|] eqn:Hmemo.
    + rewrite (stacked_hit a w v Hmemo). cbn [snd]. rewrite IH by done.
      unfold fresh. rewrite filter_cons, decide_False; [done|].
      by rewrite Hmemo.
    + destruct (stacked_miss a w Hframe Hmemo) as [Htouch Hkeys].
      rewrite IH, Htouch by done.
      assert (fresh fname (stacked a w).2 l = fresh fname w l ∖ {[a]}) as ->.
      { apply set_eq. intros b. unfold fresh.
        rewrite elem_of_difference, !elem_of_list_to_set,
          !list_elem_of_filter, Hkeys, not_elem_of_singleton.
        tauto. }
      assert (fresh fname w (a :: l) = {[a]} ∪ fresh fname w l) as ->.
      { unfold fresh. rewrite filter_cons, decide_True by done.
        by rewrite list_to_set_cons. }
      pose proof (size_union_alt (C := gset A) {[a]} (fresh fname w l)) as Hsize.
      rewrite (size_singleton (C := gset A)) in Hsize. lia.
Qed.

(** A function under [memoize] over [pickle_cache] keeps the discipline
    of the two levels when its builder leaves its dictionary and its blob
    alone. *)
Lemma stacked_two_level :
  builder_frame fname name g → two_level fname name stacked.
Proof.
  intros Hframe. split; [|split; [|split; [|split]]].
  - apply stacked_hit.
  - intros a w Htouch.
    destruct (memo w !! (fname, a)) as [v|] eqn:Hmemo; [|done].
    by rewrite (stacked_hit a w v Hmemo) in Htouch.
  - apply stacked_store_hit.
  - intros a w Hmiss. split; [by apply stacked_miss|].
    unfold memoize. rewrite Hmiss.
    destruct (pickle_cache name g a w) as [v w']. cbn.
    by rewrite lookup_insert_eq.
  - intros l w. by apply stacked_touches.
Qed.

End cache_facts.


Lemma touches_snoc_other name e t :
  e ≠ Util.Loaded name → e ≠ Util.Built name →
  Util.touches name (t ++ [e]) = Util.touches name t.
Proof.
  intros Hl Hb. unfold Util.touches. rewrite filter_app, length_app.
  rewrite filter_cons, decide_False by (by intros [?|?]). simpl. lia.
Qed.

Lemma build_newsgroups_frame run_pipeline fname name :
  builder_frame fname name (Cached.build_newsgroups run_pipeline).
Proof. by intros a w. Qed.

(** The builder of the default anchors calls [get_newsgroups], which
    writes to its own dictionary and its own blob only. *)
Lemma build_default_anchors_frame run_pipeline gramschmidt_anchors :
  builder_frame "default_anchors" "fcc-anchors-default.pickle"
    (Cached.build_default_anchors run_pipeline gramschmidt_anchors).
Proof.
  intros a w. unfold Cached.build_default_anchors, Cached.get_newsgroups.
  unfold Util.memoize, Util.pickle_cache, Cached.build_newsgroups.
  destruct (Util.memo w !! ("get_newsgroups"%string, ())) as [v|]; [done|].
  destruct (Util.store w !! "fcc.pickle"%string) as [[v|]|];
    cbn -[Util.touches];
    (split; [intros b; by rewrite lookup_insert_ne|
             by rewrite touches_snoc_other]).
Qed.

(** Of a function without arguments, the run of calls holds one distinct
    argument. *)
Lemma two_level_once {V : Type} fname name (f : Util.fn unit V) :
  two_level fname name f → once_per_process fname name f.
Proof.
  intros (_ & _ & _ & _ & Hcount) n w. rewrite !Hcount. unfold fresh.
  split.
  - intros [v Hv].
    assert (filter (λ a, Util.memo w !! (fname, a) = None)
              (replicate n ()) = []) as ->.
    { induction n as [|n IH]; [done|]. cbn [replicate].
      rewrite filter_cons, decide_False; [done|]. by rewrite Hv. }
    rewrite list_to_set_nil, size_empty. lia.
  - intros Hmiss.
    assert (∀ m, filter (λ a, Util.memo w !! (fname, a) = None)
                   (replicate m ()) = replicate m ()) as ->.
    { induction m as [|m IH]; [done|]. cbn [replicate].
      rewrite filter_cons, decide_True by done. by rewrite IH. }
    assert (list_to_set (replicate (S n) ()) = ({[ () ]} : gset ())) as ->.
    { apply set_eq. intros []. rewrite elem_of_list_to_set, elem_of_singleton.
      split; [done|]. intros _. by left. }
    rewrite (size_singleton (C := gset ())). lia.
Qed.

(** C5. [get_newsgroups] and [default_anchors], the two functions of the
    server under both decorators, keep the discipline of the two levels
    with the dictionary outside and the store inside. A call whose
    argument tuple the dictionary holds returns from the dictionary and
    leaves the store, the trace and the dictionary as they are, so that
    the persistent level is consulted only when the dictionary misses;
    when the store has the blob, that value is returned without a run of
    the builder and is in the dictionary afterwards; over a run of calls
    the persistent level is consulted once for each argument tuple that
    the dictionary did not hold; and as neither function takes an
    argument, once in a process when the dictionary is empty and not at
    all when it is not. *)
Theorem memoize_over_pickle_cache
    (run_pipeline : Server.Dataset)
    (gramschmidt_anchors : Server.Dataset → nat → nat → pyval) :
  let get_newsgroups := Cached.get_newsgroups run_pipeline in
  let default_anchors :=
    Cached.default_anchors run_pipeline gramschmidt_anchors in
  two_level "get_newsgroups" "fcc.pickle" get_newsgroups
  ∧ two_level "default_anchors" "fcc-anchors-default.pickle" default_anchors
  ∧ once_per_process "get_newsgroups" "fcc.pickle" get_newsgroups
  ∧ once_per_process "default_anchors" "fcc-anchors-default.pickle"
      default_anchors.
Proof.
  intros get_newsgroups default_anchors.
  assert (two_level "get_newsgroups" "fcc.pickle" get_newsgroups) as Hcorpus
    by apply stacked_two_level, build_newsgroups_frame.
  assert (two_level "default_anchors" "fcc-anchors-default.pickle"
            default_anchors) as Hanchors
    by apply stacked_two_level, build_default_anchors_frame.
  split; [done|]. split; [done|].
  split; by apply two_level_once.
Qed.

Lemma memoize_over_pickle_cache_witness :
  let f := Cached.default_anchors Demo.dataset Demo.gramschmidt_anchors in
  let name := "fcc-anchors-default.pickle"%string in
  let v := Cached.VAnchors (index_anchors [[1%nat]]) in
  let w := Cached.restarted name v in
  Util.memo w !! ("default_anchors"%string, ()) = None
  ∧ Util.store w !! name = Some (Some v)
  ∧ f () w
    = (v, Util.World (<[("default_anchors"%string, ()) := v]> (Util.memo w))
            (Util.store w) (Util.trace w ++ [Util.Loaded name]))
  ∧ Util.touches name (Util.trace (Util.calls f [(); (); ()] w).2)
    = S (Util.touches name (Util.trace w))
  ∧ Util.touches name (Util.trace (Util.calls f [(); (); ()] Cached.cold).2)
    = S (Util.touches name (Util.trace Cached.cold)).
Proof.
  intros f name v w.
  assert (Util.memo w !! ("default_anchors"%string, ()) = None) as Hmiss
    by reflexivity.
  assert (Util.store w !! name = Some (Some v)) as Hblob
    by (vm_compute; reflexivity).
  assert (Util.memo Cached.cold !! ("default_anchors"%string, ()) = None)
    as Hcold by reflexivity.
  pose proof (memoize_over_pickle_cache Demo.dataset Demo.gramschmidt_anchors)
    as (_ & (_ & _ & Hload & _) & _ & Honce).
  split; [exact Hmiss|]. split; [exact Hblob|].
  split; [exact (Hload () w v Hmiss Hblob)|].
  split.
  - exact (proj2 (Honce 2%nat w) Hmiss).
  - exact (proj2 (Honce 2%nat Cached.cold) Hcold).
Defined.

(** In a process the store is read or written at most once for the
    corpus and at most once for the default anchors. *)
Lemma server_builders_once run_pipeline gramschmidt_anchors w n m :
  let datasets :=
    Util.calls (Cached.get_newsgroups run_pipeline) (replicate n ()) w in
  let anchors :=
    Util.calls (Cached.default_anchors run_pipeline gramschmidt_anchors)
      (replicate m ()) w in
  (Util.touches "fcc.pickle" (Util.trace datasets.2)
   ≤ S (Util.touches "fcc.pickle" (Util.trace w)))%nat
  ∧ (Util.touches "fcc-anchors-default.pickle" (Util.trace anchors.2)
     ≤ S (Util.touches "fcc-anchors-default.pickle" (Util.trace w)))%nat.
Proof.
  assert (∀ (l : list ()) (s : gset ()), (size s ≤ 1)%nat) as Hunit.
  { intros _ s. rewrite <- (size_singleton (C := gset ()) ()).
    apply subseteq_size. intros [] _. by apply elem_of_singleton. }
  split.
  - unfold Cached.get_newsgroups. rewrite stacked_touches
      by apply build_newsgroups_frame.
    specialize (Hunit [] (fresh "get_newsgroups" w (replicate n ()))). lia.
  - unfold Cached.default_anchors. rewrite stacked_touches
      by apply build_default_anchors_frame.
    specialize (Hunit [] (fresh "default_anchors" w (replicate m ()))). lia.
Qed.

Example default_anchors_cold_run :
  let f := Cached.default_anchors Demo.dataset Demo.gramschmidt_anchors in
  Util.trace (Util.calls f [(); ()] Cached.cold).2
  = [Util.Built "fcc.pickle"; Util.Built "fcc-anchors-default.pickle"].
Proof. vm_compute. reflexivity. Qed.

(** * Further properties of the tokenizers *)

Lemma split_acc_tokens w s :
  Forall (λ c, isspace c = false) w →
  Forall (λ token, token ≠ [] ∧ Forall (λ c, isspace c = false) token)
    (split_acc w s)
  ∧ concat (split_acc w s) = w ++ List.filter (λ c, negb (isspace c)) s.
Proof.
  revert w. induction s as [|c s IH]; intros w Hw.
  - destruct w as [|c w]; simpl; [by split|].
    split; [|by rewrite !app_nil_r].
    apply Forall_singleton. by split.
  - simpl. destruct (isspace c) eqn:Hc; simpl.
    + destruct (IH [] ltac:(constructor)) as [Htok Hcat].
      destruct w as [|c' w]; simpl; [by split|].
      split; [|by rewrite Hcat].
      apply Forall_cons. by split.
    + destruct (IH (w ++ [c])) as [Htok Hcat].
      { apply Forall_app. by split; [|repeat constructor]. }
      split; [done|]. by rewrite Hcat, <- app_assoc.
Qed.

(** X1. [split] delivers words: no token is empty or holds white space, and
    the tokens put end to end are the text of the source without its
    white space. Nothing else is lost or added. *)
Theorem split_words (doc_file : TextIO) :
  Forall (λ token, token ≠ [] ∧ Forall (λ c, isspace c = false) token)
    (Tokenize.split doc_file)
  ∧ concat (Tokenize.split doc_file)
    = List.filter (λ c, negb (isspace c)) doc_file.
Proof.
  unfold Tokenize.split, str_split, read. simpl.
  by apply (split_acc_tokens []).
Qed.

Lemma split_acc_app w a ws b :
  ws ≠ [] →
  Forall (λ c, isspace c = true) ws →
  split_acc w (a ++ ws ++ b) = split_acc w a ++ split_acc [] b.
Proof.
  intros Hne Hws. revert w. induction a as [|c a IH]; intros w.
  - simpl. destruct ws as [|c ws]; [done|].
    by rewrite (split_acc_spaces w (c :: ws) b).
  - simpl. destruct (isspace c).
    + by rewrite IH, app_assoc.
    + by rewrite IH.
Qed.

(** X2. Tokenizing is local: white space between two texts separates their
    tokens, for [split] and for [simple]. *)
Theorem simple_concat
    (str_lower : str → str) (ci_eq : codepoint → codepoint → bool)
    (a ws b : str) :
  ws ≠ [] →
  Forall (λ c, isspace c = true) ws →
  Tokenize.split (a ++ ws ++ b) = Tokenize.split a ++ Tokenize.split b
  ∧ (let simple := Tokenize.simple str_lower ci_eq Tokenize.split in
     simple (a ++ ws ++ b) = simple a ++ simple b).
Proof.
  intros Hne Hws.
  assert (Tokenize.split (a ++ ws ++ b)
          = Tokenize.split a ++ Tokenize.split b) as Hsplit.
  { unfold Tokenize.split, str_split, read. simpl. by apply split_acc_app. }
  split; [done|]. unfold Tokenize.simple.
  by rewrite Hsplit, !map_app, filter_app.
Qed.

Lemma simple_concat_witness :
  [SP; LF] ≠ []
  ∧ Forall (λ c, isspace c = true) [SP; LF]
  ∧ Tokenize.simple_a Tokenize.split (py "Hello you" ++ [SP; LF] ++ py "2 b")
    = Tokenize.simple_a Tokenize.split (py "Hello you")
      ++ Tokenize.simple_a Tokenize.split (py "2 b").
Proof.
  assert ([SP; LF] ≠ []) as Hne by discriminate.
  assert (Forall (λ c, isspace c = true) [SP; LF]) as Hws
    by (by repeat constructor).
  split; [exact Hne|]. split; [exact Hws|].
  exact (proj2 (simple_concat Tokenize.ascii_lower Tokenize.ascii_ci_eq
                  (py "Hello you") [SP; LF] (py "2 b") Hne Hws)).
Defined.

Lemma filter_is_az_nil s :
  List.filter is_az s = [] ↔ Forall (λ c, is_az c = false) s.
Proof.
  induction s as [|c s IH]; simpl; [by split|].
  destruct (is_az c) eqn:Hc.
  - split; [done|]. intros Hall. apply Forall_cons in Hall as [? _].
    congruence.
  - rewrite IH. split; [by constructor|].
    by intros [_ ?]%Forall_cons.
Qed.

Lemma filter_nil_Forall {X} (P : X → Prop) `{∀ x, Decision (P x)} l :
  filter P l = [] ↔ Forall (λ x, ¬ P x) l.
Proof.
  induction l as [|x l IH]; [by split|].
  rewrite filter_cons. case_decide as Hx.
  - split; [done|]. by intros [? _]%Forall_cons.
  - rewrite IH. split; [by constructor|]. by intros [_ ?]%Forall_cons.
Qed.

(** X3. [simple] only drops tokens: it returns no more tokens than the
    splitter delivers, and none at all exactly when no token of the
    splitter has a letter [a] to [z] once it is lower-cased. *)
Theorem simple_drops_tokens
    (str_lower : str → str) (ci_eq : codepoint → codepoint → bool)
    (splitter : Tokenize.Tokenizer) (doc_file : TextIO) :
  (length (Tokenize.simple str_lower ci_eq splitter doc_file)
   ≤ length (splitter doc_file))%nat
  ∧ (Tokenize.simple str_lower ci_eq splitter doc_file = []
     ↔ Forall (λ token, Forall (λ c, is_az c = false) (str_lower token))
         (splitter doc_file)).
Proof.
  unfold Tokenize.simple. split.
  - etrans; [apply length_filter|]. by rewrite !length_map.
  - rewrite filter_nil_Forall.
    induction (splitter doc_file) as [|t l IH]; simpl; [by split|].
    rewrite !Forall_cons, IH, re_sub_not_az, <- filter_is_az_nil.
    split; intros [Ht ?]; (split; [|done]).
    + by destruct (decide (List.filter is_az (str_lower t) = [])).
    + by intros [].
Qed.

Lemma readline_line l rest :
  is_line l → readline (l ++ rest) = (l, rest).
Proof.
  intros (l' & -> & Hl'). rewrite <- app_assoc.
  change ([LF] ++ rest) with (LF :: rest).
  induction l' as [|c l' IH]; simpl; [done|].
  apply not_elem_of_cons in Hl' as [Hc Hl'].
  destruct (N.eqb_spec c LF) as [->|_]; [done|].
  by rewrite (IH Hl').
Qed.

(** X4. [news] skips the header and the blank line that ends it: for a
    document made of non-blank lines, a blank line and a body, the inner
    tokenizer gets exactly the body. *)
Theorem news_skips_header
    (tokenizer : Tokenize.Tokenizer) (header : list str) (blank body : str) :
  Forall (λ line, is_line line ∧ strip line ≠ []) header →
  is_line blank →
  strip blank = [] →
  Tokenize.news tokenizer (concat header ++ blank ++ body) = tokenizer body.
Proof.
  intros Hheader Hline Hblank. unfold Tokenize.news. f_equal.
  induction Hheader as [|line header [Hl Hne] _ IH].
  - simpl. rewrite skip_header_unfold, (readline_line _ _ Hline).
    by rewrite Hblank.
  - simpl. rewrite <- app_assoc.
    rewrite skip_header_unfold, (readline_line _ _ Hl).
    by destruct (strip line).
Qed.

Lemma news_skips_header_witness :
  let header := [py "From: a" ++ [LF]; py "Subject: b" ++ [LF]] in
  let blank := [SP; LF] in
  let body := py "Some body" ++ [LF; LF] ++ py "more" in
  Tokenize.news (Tokenize.simple_a Tokenize.split)
    (concat header ++ blank ++ body)
  = Tokenize.simple_a Tokenize.split body.
Proof.
  intros header blank body.
  apply (news_skips_header (Tokenize.simple_a Tokenize.split) header blank
           body).
  - repeat constructor; try discriminate.
    + exists (py "From: a"). split; [done|].
      intros Hin%list_elem_of_In. vm_compute in Hin.
      repeat destruct Hin as [Hin|Hin]; try discriminate Hin. exact Hin.
    + exists (py "Subject: b"). split; [done|].
      intros Hin%list_elem_of_In. vm_compute in Hin.
      repeat destruct Hin as [Hin|Hin]; try discriminate Hin. exact Hin.
  - exists [SP]. split; [done|].
    intros Hin%list_elem_of_In. vm_compute in Hin.
    repeat destruct Hin as [Hin|Hin]; try discriminate Hin. exact Hin.
  - reflexivity.
Defined.

Lemma readline_ends f :
  (readline f).2 = [] ∨ ∃ h, (readline f).1 = h ++ [LF].
Proof.
  induction f as [|c f IH]; simpl; [by left|].
  destruct (N.eqb_spec c LF) as [->|_]; [right; by exists []|].
  destruct (readline f) as [line rest]. simpl in *.
  destruct IH as [->|[h ->]]; [by left|right]. by exists (c :: h).
Qed.

(** What the header loop has read ends with a line feed, unless it has
    read everything. *)
Lemma skip_header_split doc_file :
  ∃ header,
    doc_file = header ++ Tokenize.skip_header doc_file
    ∧ (Tokenize.skip_header doc_file = [] ∨ ∃ h, header = h ++ [LF]).
Proof.
  remember (length doc_file) as n eqn:Hn. revert doc_file Hn.
  induction n as [n IH] using lt_wf_ind. intros doc_file Hn.
  rewrite skip_header_unfold.
  pose proof (readline_app doc_file) as Happ.
  pose proof (readline_ends doc_file) as Hends.
  pose proof (readline_rest_shorter doc_file) as Hlt.
  destruct (readline doc_file) as [line rest]. simpl in *.
  destruct (strip line) eqn:Hs.
  - exists line. split; [done|]. destruct Hends as [->|Hh]; [by left|by right].
  - destruct (IH (length rest)) with (doc_file := rest)
      as (header & Hrest & Hheader); [|done|].
    { subst n. apply Hlt. by intros ->. }
    exists (line ++ header). split.
    + by rewrite <- app_assoc, <- Hrest.
    + destruct Hheader as [Hnil|[h ->]]; [by left|].
      destruct (Tokenize.skip_header rest) eqn:Hsk; [by left|right].
      exists (line ++ h). by rewrite app_assoc.
Qed.

(** X5. [news] never invents text: what it hands to its tokenizer is an end
    piece of the document; and with the default tokenizer its tokens are
    the tokens of the whole document without those of the header. *)
Theorem news_tail_of_simple
    (str_lower : str → str) (ci_eq : codepoint → codepoint → bool)
    (doc_file : TextIO) :
  let simple := Tokenize.simple str_lower ci_eq Tokenize.split in
  ∃ header,
    doc_file = header ++ Tokenize.skip_header doc_file
    ∧ simple doc_file = simple header ++ Tokenize.news simple doc_file
    ∧ Tokenize.news simple doc_file `suffix_of` simple doc_file.
Proof.
  intros simple.
  destruct (skip_header_split doc_file) as (header & Hdoc & Hcase).
  exists header. split; [done|].
  assert (simple doc_file = simple header ++ Tokenize.news simple doc_file)
    as Heq.
  { unfold Tokenize.news. destruct Hcase as [Hnil|[h ->]].
    - rewrite Hnil in Hdoc |- *. rewrite app_nil_r in Hdoc. subst header.
      by rewrite app_nil_r.
    - rewrite Hdoc at 1. unfold simple, Tokenize.simple, Tokenize.split,
        str_split, read. simpl.
      rewrite <- app_assoc, (split_acc_app [] h [LF]) by (done || by constructor).
      rewrite (split_acc_trailing [] h [LF]) by (by constructor).
      by rewrite !map_app, filter_app. }
  split; [done|]. rewrite Heq. by apply suffix_app_r.
Qed.

(** * Further properties of [html] *)

Section html_more.

Import Re.
Variable ci_eq : codepoint → codepoint → bool.

Lemma sub_from_elem ci r repl skip s x :
  x ∈ sub_from ci_eq ci r repl skip s → x ∈ s ∨ x ∈ repl.
Proof.
  revert skip. induction s as [|c s IH]; intros skip; [by left|].
  destruct skip as [|n].
  - rewrite sub_from_cons.
    destruct (re_match ci_eq ci r (c :: s)) as [rest|].
    + destruct (length (c :: s) - length rest)%nat.
      * intros [->|Hx%IH]%elem_of_cons; [left; by left|].
        destruct Hx; [left; by right|by right].
      * intros [Hx|Hx%IH]%elem_of_app; [by right|].
        destruct Hx; [left; by right|by right].
    + intros [->|Hx%IH]%elem_of_cons; [left; by left|].
      destruct Hx; [left; by right|by right].
  - cbn [sub_from]. intros Hx%IH.
    destruct Hx; [left; by right|by right].
Qed.

Lemma sub_from_skip ci r repl a rest :
  sub_from ci_eq ci r repl (length a) (a ++ rest)
  = sub_from ci_eq ci r repl 0 rest.
Proof. induction a as [|c a IH]; [done|]. exact IH. Qed.

Lemma existsb_gt_false s : 62 ∉ s → existsb (N.eqb 62) s = false.
Proof.
  intros Hno. destruct (existsb (N.eqb 62) s) eqn:Hex; [|done].
  apply existsb_exists in Hex as (x & Hx%list_elem_of_In & Heq%N.eqb_eq).
  by subst x.
Qed.

Lemma has_tag_no_gt s : 62 ∉ s → has_tag s = false.
Proof.
  induction s as [|c s IH]; [done|].
  intros [_ Hs]%not_elem_of_cons. simpl.
  by rewrite existsb_gt_false, IH, andb_false_r.
Qed.

Lemma rmatch_lazy_unfold ci s g k :
  rmatch ci_eq ci LazyDots s g k =
    match k s g with
    | Some x => Some x
    | None =>
        match s with
        | [] => None
        | _ :: s' => rmatch ci_eq ci LazyDots s' g k
        end
    end.
Proof. by destruct s. Qed.

Lemma rmatch_lit_char ci x c s g k :
  rmatch ci_eq ci (Lit false [x]) (c :: s) g k
  = if x =? c then k s g else None.
Proof. cbn [rmatch strip_prefix]. by destruct (x =? c). Qed.

(** [.*?>] stops at the first [>]. *)
Lemma rmatch_lazy_first ci a b g k x :
  62 ∉ a →
  k b g = Some x →
  rmatch ci_eq ci LazyDots (a ++ 62 :: b) g
    (λ s1 g1, rmatch ci_eq ci (Lit false [62]) s1 g1 k) = Some x.
Proof.
  intros Ha Hk. induction a as [|c a IH]; rewrite rmatch_lazy_unfold.
  - cbn [app]. by rewrite rmatch_lit_char, N.eqb_refl, Hk.
  - apply not_elem_of_cons in Ha as [Hc Ha]. cbn [app].
    rewrite rmatch_lit_char.
    destruct (N.eqb_spec 62 c) as [Heq|_]; [by destruct Hc|]. by apply IH.
Qed.

(** The pattern [<.*?>] matches from a [<] to the first [>] after it. *)
Lemma re_match_tag_first ci a b :
  62 ∉ a →
  re_match ci_eq ci Tokenize.tag (60 :: a ++ 62 :: b) = Some b.
Proof.
  intros Ha. unfold re_match, Tokenize.tag. rewrite rmatch_cat.
  change (py "<") with [60]. change (py ">") with [62].
  rewrite rmatch_lit_char, N.eqb_refl, rmatch_cat.
  by apply rmatch_lazy_first.
Qed.

(** After [re.sub(r'(?s)<.*?>', ' ', text)] no tag is left. *)
Lemma re_sub_tag_no_tag ci s :
  has_tag (re_sub ci_eq ci Tokenize.tag [SP] s) = false.
Proof.
  unfold re_sub. remember (length s) as n eqn:Hn. revert s Hn.
  induction n as [n IH] using lt_wf_ind. intros s Hn.
  destruct s as [|c s]; [done|]. simpl in Hn.
  destruct (decide (c = 60 ∧ 62 ∈ s)) as [[-> Hgt]|Hno].
  - apply list_elem_of_split_l in Hgt as (a & b & -> & Ha).
    rewrite sub_from_cons, re_match_tag_first by done.
    match goal with
    | |- context [match ?e with O => _ | S _ => _ end] =>
        destruct e as [|m] eqn:Hlen
    end.
    all: change (length (60 :: a ++ 62 :: b))
           with (S (length (a ++ 62 :: b))) in Hlen;
         rewrite length_app in Hlen;
         change (length (62 :: b)) with (S (length b)) in Hlen;
         unfold codepoint in Hlen.
    { lia. }
    assert (m = length (a ++ [62])) as ->.
    { rewrite length_app. simpl. lia. }
    replace (a ++ 62 :: b) with ((a ++ [62]) ++ b)
      by (by rewrite <- app_assoc).
    rewrite sub_from_skip. cbn [app has_tag]. simpl.
    apply (IH (length b)); [|done].
    rewrite !length_app in Hn. simpl in Hn. lia.
  - destruct (re_match ci_eq ci Tokenize.tag (c :: s)) as [rest|] eqn:Hm.
    { destruct (tag_match ci_eq ci (c :: s)) as (s1 & [= -> ->] & Hin);
        [by eexists|]. destruct Hno. by split. }
    rewrite sub_from_cons, Hm. cbn [has_tag].
    rewrite (IH (length s)) by (lia || done). rewrite orb_false_r.
    destruct (N.eqb_spec c 60) as [->|_]; [|done]. cbn.
    apply existsb_gt_false. intros [Hin|Hin]%sub_from_elem.
    + destruct Hno. by split.
    + by apply list_elem_of_singleton in Hin.
Qed.

(** Replacing a literal text by a space brings no tag into a text. *)
Lemma re_sub_lit_no_tag ci t s :
  has_tag s = false →
  has_tag (re_sub ci_eq ci (Lit false t) [SP] s) = false.
Proof.
  unfold re_sub. remember (length s) as n eqn:Hn. revert s Hn.
  induction n as [n IH] using lt_wf_ind. intros s Hn Htag.
  destruct s as [|c s]; [done|]. simpl in Hn.
  rewrite sub_from_cons, re_match_lit.
  assert (has_tag (c :: sub_from ci_eq ci (Lit false t) [SP] 0 s) = false)
    as Hkeep.
  { cbn [has_tag] in Htag |- *.
    apply orb_false_iff in Htag as [Hhere Hrest].
    rewrite (IH (length s)) by (lia || done). rewrite orb_false_r.
    destruct (N.eqb_spec c 60) as [->|_]; [|done]. cbn in Hhere |- *.
    apply existsb_gt_false. intros [Hin|Hin]%sub_from_elem.
    + assert (existsb (N.eqb 62) s = true) as Hex; [|congruence].
      apply existsb_exists. exists 62. split; [by apply list_elem_of_In|done].
    + by apply list_elem_of_singleton in Hin. }
  case_decide as Hpre; [|done].
  destruct Hpre as [rest Hs].
  destruct (length (c :: s) - length (drop (length t) (c :: s)))%nat
    as [|m] eqn:Hlen; [done|].
  assert (∃ t', t = c :: t' ∧ s = t' ++ rest) as (t' & -> & ->).
  { destruct t as [|c' t']; [|injection Hs as <- ->; by eexists].
    simpl in Hlen. lia. }
  change (drop (length (c :: t')) (c :: t' ++ rest)) with
    (drop (length t') (t' ++ rest)) in Hlen.
  rewrite drop_app_length in Hlen.
  assert (m = length t') as ->.
  { simpl in Hlen. rewrite length_app in Hlen. lia. }
  rewrite sub_from_skip. cbn [app has_tag]. simpl.
  apply (IH (length rest)); [rewrite length_app in Hn; lia|done|].
  apply (has_tag_suffix (c :: t' ++ rest)); [done|].
  by exists (c :: t').
Qed.

End html_more.

(** X6. [html] hands no tag to its tokenizer: whatever the document, the text
    that the inner tokenizer gets holds no [<] with a [>] after it. *)
Theorem html_strips_tags
    (ci_eq : codepoint → codepoint → bool)
    (tokenizer : Tokenize.Tokenizer) (doc_file : TextIO) :
  ∃ text,
    Tokenize.html ci_eq tokenizer doc_file = tokenizer (StringIO text)
    ∧ has_tag text = false.
Proof.
  eexists. split; [reflexivity|].
  apply has_tag_strip.
  do 2 apply re_sub_lit_no_tag. unfold Tokenize.nbsp.
  apply re_sub_lit_no_tag. apply re_sub_tag_no_tag.
Qed.

(** * Further properties of the anchor converter *)

Lemma index_from_first i vocab term j :
  Server.index_from i vocab term = Some j →
  ∀ m, (i ≤ m < j)%nat → vocab !! (m - i)%nat ≠ Some term.
Proof.
  revert i. induction vocab as [|t vocab IH]; intros i; simpl; [done|].
  case_decide as Ht.
  - intros [= <-] m Hm. lia.
  - intros Hj m Hm. destruct (decide (m = i)) as [->|Hne].
    + rewrite Nat.sub_diag. simpl. congruence.
    + replace (m - i)%nat with (S (m - S i)) by lia. simpl.
      apply (IH _ Hj). lia.
Qed.

(** X7. [convert_anchor] gives a term its first position in the vocabulary:
    the position holds the term and no earlier one does. *)
Theorem convert_anchor_first
    (dataset : Server.Dataset) (term : str) (i : Z) :
  Server.convert_anchor dataset (PStr term) = Ok (PInt i) →
  ∃ n : nat,
    i = Z.of_nat n
    ∧ Server.vocab dataset !! n = Some term
    ∧ ∀ m, (m < n)%nat → Server.vocab dataset !! m ≠ Some term.
Proof.
  unfold Server.convert_anchor, Server.list_index.
  destruct (Server.index_from 0 (Server.vocab dataset) term) as [n|] eqn:Hn;
    [|done].
  intros [= <-]. exists n. split; [done|].
  pose proof (index_from_Some _ _ _ _ Hn) as [_ Hlook].
  rewrite Nat.sub_0_r in Hlook. split; [done|]. intros m Hm.
  pose proof (index_from_first _ _ _ _ Hn m) as Hfirst.
  rewrite Nat.sub_0_r in Hfirst. apply Hfirst. lia.
Qed.

Lemma convert_anchor_first_witness :
  let dataset := {| Server.vocab := [py "a"; py "b"; py "a"; py "b"] |} in
  Server.convert_anchor dataset (PStr (py "b")) = Ok (PInt 1)
  ∧ ∃ n : nat, 1%Z = Z.of_nat n ∧ Server.vocab dataset !! n = Some (py "b").
Proof.
  intros dataset.
  assert (Server.convert_anchor dataset (PStr (py "b")) = Ok (PInt 1))
    as Hconv by reflexivity.
  split; [exact Hconv|].
  destruct (convert_anchor_first dataset (py "b") 1 Hconv)
    as (n & Hn & Hlook & _).
  by exists n.
Defined.

Lemma mapM_Raise_inv {X Y} (f : X → result Y) (l : list X) e :
  mapM f l = Raise e → ∃ x, x ∈ l ∧ f x = Raise e.
Proof.
  induction l as [|x l IH]; [done|]. cbn [mapM].
  destruct (f x) as [y|e'] eqn:Hx; cbn.
  - destruct (mapM f l) as [k|e'] eqn:Hl; cbn; [done|].
    intros [= ->]. destruct IH as (x' & Hin & Hx'); [done|].
    exists x'. split; [by right|done].
  - intros [= ->]. exists x. split; [by left|done].
Qed.

Lemma mapM_total {X Y} (f : X → result Y) (l : list X) :
  Forall (λ x, ∃ y, f x = Ok y) l → ∃ k, mapM f l = Ok k.
Proof.
  induction 1 as [|x l [y Hy] _ [k Hk]]; [by exists []|].
  exists (y :: k). cbn [mapM]. rewrite Hy. cbn. by rewrite Hk.
Qed.

(** X8. What [reindex_anchors] returns is made of integers and tuples, and
    reindexing it again changes nothing: indexed anchors are a normal
    form. *)
Theorem reindex_anchors_idempotent
    (dataset : Server.Dataset) (anchors reindexed : pyval) :
  Server.reindex_anchors dataset anchors = Ok reindexed →
  indexed reindexed = true
  ∧ Server.reindex_anchors dataset reindexed = Ok reindexed.
Proof.
  unfold Server.reindex_anchors. revert reindexed.
  induction anchors as [i|s|l IH|l IH] using pyval_nested_ind;
    intros reindexed.
  - intros [= <-]. by split.
  - cbn [Util.tuplize Server.convert_anchor Server.list_index].
    destruct (Server.index_from 0 (Server.vocab dataset) s); [|done].
    intros [= <-]. by split.
  - rewrite tuplize_seq.
    destruct (mapM _ l) as [l'|e] eqn:Hl; [|done]. intros [= <-].
    apply mapM_Ok_inv in Hl.
    assert (Forall (λ y, indexed y = true
              ∧ Util.tuplize (λ t, Server.convert_anchor dataset t) y = Ok y)
              l') as Hall.
    { clear -IH Hl. induction Hl as [|x y l l' Hxy _ IHl]; [done|].
      apply Forall_cons in IH as [Hx IH]. constructor; auto. }
    split.
    + cbn [indexed]. apply forallb_forall. intros y Hy%list_elem_of_In.
      rewrite Forall_forall in Hall. by apply Hall.
    + rewrite tuplize_tuple.
      assert (mapM (Util.tuplize (λ t, Server.convert_anchor dataset t)) l'
              = Ok l') as ->; [|done].
      apply mapM_Ok. clear -Hall.
      induction Hall as [|y l' [_ Hy] _ IHl]; constructor; auto.
  - rewrite tuplize_tuple.
    destruct (mapM _ l) as [l'|e] eqn:Hl; [|done]. intros [= <-].
    apply mapM_Ok_inv in Hl.
    assert (Forall (λ y, indexed y = true
              ∧ Util.tuplize (λ t, Server.convert_anchor dataset t) y = Ok y)
              l') as Hall.
    { clear -IH Hl. induction Hl as [|x y l l' Hxy _ IHl]; [done|].
      apply Forall_cons in IH as [Hx IH]. constructor; auto. }
    split.
    + cbn [indexed]. apply forallb_forall. intros y Hy%list_elem_of_In.
      rewrite Forall_forall in Hall. by apply Hall.
    + rewrite tuplize_tuple.
      assert (mapM (Util.tuplize (λ t, Server.convert_anchor dataset t)) l'
              = Ok l') as ->; [|done].
      apply mapM_Ok. clear -Hall.
      induction Hall as [|y l' [_ Hy] _ IHl]; constructor; auto.
Qed.

Lemma reindex_anchors_idempotent_witness :
  let dataset := {| Server.vocab := [py "a"; py "b"; py "c"] |} in
  let anchors := PList [PList [PStr (py "c"); PInt 0]; PStr (py "b")] in
  let reindexed := PTuple [PTuple [PInt 2; PInt 0]; PInt 1] in
  Server.reindex_anchors dataset anchors = Ok reindexed
  ∧ Server.reindex_anchors dataset reindexed = Ok reindexed.
Proof.
  intros dataset anchors reindexed.
  assert (Server.reindex_anchors dataset anchors = Ok reindexed) as Hre
    by reflexivity.
  split; [exact Hre|].
  exact (proj2 (reindex_anchors_idempotent dataset anchors reindexed Hre)).
Defined.

Lemma tuplize_strings_ok dataset anchors :
  Forall (λ term, term ∈ Server.vocab dataset) (strings_of anchors) →
  ∃ reindexed,
    Util.tuplize (λ t, Server.convert_anchor dataset t) anchors
    = Ok reindexed.
Proof.
  induction anchors as [i|s|l IH|l IH] using pyval_nested_ind; intros Hall.
  - by eexists.
  - cbn [strings_of] in Hall. rewrite Forall_singleton in Hall.
    destruct (convert_anchor_term _ _ Hall) as (i & Hi & _). by eexists.
  - rewrite tuplize_seq.
    destruct (mapM_total (Util.tuplize (λ t, Server.convert_anchor dataset t))
                l) as [k Hk]; [|rewrite Hk; by eexists].
    cbn [strings_of] in Hall. clear -IH Hall.
    induction IH as [|x l Hx _ IHl]; [done|].
    cbn [map concat] in Hall. apply Forall_app in Hall as [Hhere Hrest].
    constructor; auto.
  - rewrite tuplize_tuple.
    destruct (mapM_total (Util.tuplize (λ t, Server.convert_anchor dataset t))
                l) as [k Hk]; [|rewrite Hk; by eexists].
    cbn [strings_of] in Hall. clear -IH Hall.
    induction IH as [|x l Hx _ IHl]; [done|].
    cbn [map concat] in Hall. apply Forall_app in Hall as [Hhere Hrest].
    constructor; auto.
Qed.

Lemma elem_of_concat {X} (x : X) (ls : list (list X)) :
  x ∈ concat ls ↔ ∃ l, x ∈ l ∧ l ∈ ls.
Proof.
  rewrite list_elem_of_In, in_concat. split.
  - intros (l & Hl & Hx). exists l. by rewrite !list_elem_of_In.
  - intros (l & Hx & Hl). exists l. by rewrite <- !list_elem_of_In.
Qed.

Lemma tuplize_strings_raise dataset anchors e :
  Util.tuplize (λ t, Server.convert_anchor dataset t) anchors = Raise e →
  e = ValueError
  ∧ ∃ term, term ∈ strings_of anchors ∧ term ∉ Server.vocab dataset.
Proof.
  induction anchors as [i|s|l IH|l IH] using pyval_nested_ind.
  - done.
  - cbn [Util.tuplize Server.convert_anchor Server.list_index].
    destruct (Server.index_from 0 (Server.vocab dataset) s) eqn:Hs; [done|].
    intros [= <-]. split; [done|]. exists s. split; [by left|].
    by apply (index_from_None 0).
  - rewrite tuplize_seq.
    destruct (mapM _ l) as [l'|e'] eqn:Hl; [done|]. intros [= ->].
    apply mapM_Raise_inv in Hl as (x & Hin & Hx).
    rewrite Forall_forall in IH.
    destruct (IH x Hin Hx) as (-> & term & Hterm & Hout).
    split; [done|]. exists term. split; [|done].
    cbn [strings_of]. apply elem_of_concat. exists (strings_of x).
    split; [done|]. apply list_elem_of_In, in_map. by apply list_elem_of_In.
  - rewrite tuplize_tuple.
    destruct (mapM _ l) as [l'|e'] eqn:Hl; [done|]. intros [= ->].
    apply mapM_Raise_inv in Hl as (x & Hin & Hx).
    rewrite Forall_forall in IH.
    destruct (IH x Hin Hx) as (-> & term & Hterm & Hout).
    split; [done|]. exists term. split; [|done].
    cbn [strings_of]. apply elem_of_concat. exists (strings_of x).
    split; [done|]. apply list_elem_of_In, in_map. by apply list_elem_of_In.
Qed.

Lemma tuplize_strings_ok_inv dataset anchors reindexed :
  Util.tuplize (λ t, Server.convert_anchor dataset t) anchors
    = Ok reindexed →
  Forall (λ term, term ∈ Server.vocab dataset) (strings_of anchors).
Proof.
  revert reindexed.
  induction anchors as [i|s|l IH|l IH] using pyval_nested_ind;
    intros reindexed.
  - intros _. constructor.
  - cbn [Util.tuplize Server.convert_anchor Server.list_index strings_of].
    destruct (Server.index_from 0 (Server.vocab dataset) s) eqn:Hs; [|done].
    intros _. apply Forall_singleton.
    destruct (decide (s ∈ Server.vocab dataset)) as [|Hout]; [done|].
    apply (index_from_None 0) in Hout. congruence.
  - rewrite tuplize_seq.
    destruct (mapM _ l) as [l'|e] eqn:Hl; [|done]. intros _.
    apply mapM_Ok_inv in Hl. cbn [strings_of]. clear -IH Hl.
    induction Hl as [|x y l l' Hxy _ IHl]; [constructor|].
    apply Forall_cons in IH as [Hx IH]. cbn [map concat].
    apply Forall_app. split; [by eapply Hx|by apply IHl].
  - rewrite tuplize_tuple.
    destruct (mapM _ l) as [l'|e] eqn:Hl; [|done]. intros _.
    apply mapM_Ok_inv in Hl. cbn [strings_of]. clear -IH Hl.
    induction Hl as [|x y l l' Hxy _ IHl]; [constructor|].
    apply Forall_cons in IH as [Hx IH]. cbn [map concat].
    apply Forall_app. split; [by eapply Hx|by apply IHl].
Qed.

(** X9. On anchors made of integers, strings and tuples of these, at
    whatever depth, as [tuplize] makes them of the arrays of integers and
    strings of a request, [reindex_anchors] returns exactly when every
    string in the anchors is a term of the vocabulary; when it raises, the
    error is that of the lookup and some string of the anchors is not in
    the vocabulary. *)
Theorem reindex_anchors_unknown_term
    (dataset : Server.Dataset) (anchors : pyval) :
  hashable anchors = true →
  (Forall (λ term, term ∈ Server.vocab dataset) (strings_of anchors)
   ↔ ∃ reindexed, Server.reindex_anchors dataset anchors = Ok reindexed)
  ∧ (∀ e, Server.reindex_anchors dataset anchors = Raise e →
          e = ValueError
          ∧ ∃ term, term ∈ strings_of anchors
                    ∧ term ∉ Server.vocab dataset).
Proof.
  intros _. unfold Server.reindex_anchors. split; [split|].
  - apply tuplize_strings_ok.
  - intros [reindexed Hre]. by eapply tuplize_strings_ok_inv.
  - apply tuplize_strings_raise.
Qed.

Lemma reindex_anchors_unknown_term_witness :
  let dataset := {| Server.vocab := [py "a"; py "b"; py "c"] |} in
  let anchors := PTuple [PTuple [PStr (py "a"); PStr (py "zz")]] in
  hashable anchors = true
  ∧ Server.reindex_anchors dataset anchors = Raise ValueError
  ∧ ∃ term, term ∈ strings_of anchors ∧ term ∉ Server.vocab dataset.
Proof.
  intros dataset anchors.
  assert (hashable anchors = true) as Hhash by reflexivity.
  assert (Server.reindex_anchors dataset anchors = Raise ValueError) as Hre
    by reflexivity.
  split; [exact Hhash|]. split; [exact Hre|].
  exact (proj2 (proj2 (reindex_anchors_unknown_term dataset anchors Hhash)
                  ValueError Hre)).
Defined.

Lemma index_from_NoDup i vocab (n : nat) term :
  NoDup vocab →
  vocab !! n = Some term →
  Server.index_from i vocab term = Some (i + n)%nat.
Proof.
  intros Hnd. revert i n.
  induction Hnd as [|t vocab Hnotin _ IH]; intros i n; [done|].
  destruct n as [|n]; simpl.
  - intros [= ->]. rewrite decide_True by done. f_equal. lia.
  - intros Hn. rewrite decide_False.
    + rewrite (IH (S i) n Hn). f_equal. lia.
    + intros ->. apply Hnotin. by eapply list_elem_of_lookup_2.
Qed.

Lemma tokenify_index_anchors_inv dataset indices groups :
  Server.tokenify_anchors dataset (index_anchors indices) = Ok groups →
  Forall2 (Forall2 (λ i term, Server.vocab dataset !! i = Some term))
    indices groups.
Proof.
  unfold Server.tokenify_anchors, index_anchors. cbn.
  intros Hall%mapM_Ok_inv. apply Forall2_fmap_l in Hall.
  eapply Forall2_impl; [done|]. intros ixs group. cbn.
  intros Hgroup%mapM_Ok_inv. apply Forall2_fmap_l in Hgroup.
  eapply Forall2_impl; [done|]. intros i term. cbn.
  apply list_getitem_nat.
Qed.

(** X10. Indices turned into tokens and the tokens turned into indices again
    are the indices one started from, when no term occurs twice in the
    vocabulary. The tokens, which [tokenify_anchors] returns as lists, go
    into [reindex_anchors] as tuples, made by [tuplize] as [topic_request]
    makes them of the arrays of a request. *)
Theorem tokenify_reindex_round_trip
    (dataset : Server.Dataset) (indices : list (list nat))
    (groups : list (list str)) :
  NoDup (Server.vocab dataset) →
  Server.tokenify_anchors dataset (index_anchors indices) = Ok groups →
  Server.reindex_anchors dataset (token_tuples groups)
  = Ok (index_anchors indices)
  ∧ Util.tuplize Ok (token_anchors groups) ≫= Server.reindex_anchors dataset
    = Ok (index_anchors indices).
Proof.
  intros Hnd Hall%tokenify_index_anchors_inv.
  enough (Server.reindex_anchors dataset (token_tuples groups)
          = Ok (index_anchors indices)) as Hre.
  { split; [done|]. by rewrite tuplize_token_anchors. }
  rewrite reindex_token_tuples.
  assert (Forall (Forall (λ term, term ∈ Server.vocab dataset)) groups)
    as Hin.
  { clear -Hall. induction Hall as [|ixs group indices groups Hg _ IH];
      constructor; [|done].
    clear -Hg. induction Hg as [|i term ixs group Hi _ IH];
      constructor; [|done]. by eapply list_elem_of_lookup_2. }
  destruct (reindex_token_anchors _ _ Hin) as (indices' & -> & Hall').
  do 2 f_equal. clear Hin. revert indices' Hall'.
  induction Hall as [|ixs group indices groups Hg _ IH];
    intros indices' Hall'; inversion Hall' as [|ixs' ? ? ? Hg' Hrest];
    subst; [done|].
  f_equal; [|by apply IH]. clear -Hnd Hg Hg'. revert ixs' Hg'.
  induction Hg as [|i term ixs group Hi _ IH];
    intros ixs' Hg'; inversion Hg' as [|i' ? ? ? Hi' Hrest]; subst; [done|].
  f_equal; [|by apply IH]. by eapply NoDup_lookup.
Qed.

Lemma tokenify_reindex_round_trip_witness :
  let dataset := {| Server.vocab := [py "a"; py "b"; py "c"] |} in
  let indices := [[2%nat; 0%nat]; [1%nat]] in
  NoDup (Server.vocab dataset)
  ∧ Server.tokenify_anchors dataset (index_anchors indices)
    = Ok [[py "c"; py "a"]; [py "b"]]
  ∧ Server.reindex_anchors dataset
      (token_tuples [[py "c"; py "a"]; [py "b"]])
    = Ok (index_anchors indices)
  ∧ Util.tuplize Ok (token_anchors [[py "c"; py "a"]; [py "b"]])
      ≫= Server.reindex_anchors dataset
    = Ok (index_anchors indices).
Proof.
  intros dataset indices.
  assert (NoDup (Server.vocab dataset)) as Hnd.
  { apply NoDup_ListNoDup. repeat constructor; simpl;
      intros H; repeat destruct H as [H|H]; try discriminate H; exact H. }
  assert (Server.tokenify_anchors dataset (index_anchors indices)
          = Ok [[py "c"; py "a"]; [py "b"]]) as Htok by reflexivity.
  split; [exact Hnd|]. split; [exact Htok|].
  exact (tokenify_reindex_round_trip dataset indices _ Hnd Htok).
Defined.

Lemma list_getitem_in_range vocab i :
  in_range (length vocab) i → ∃ term, Server.list_getitem vocab i = Ok term.
Proof.
  unfold in_range, Server.list_getitem. cbv zeta. intros Hi.
  destruct (Z.ltb_spec i 0).
  - destruct (Z.ltb_spec (i + Z.of_nat (length vocab)) 0); [lia|].
    destruct (lookup_lt_is_Some_2 vocab
                (Z.to_nat (i + Z.of_nat (length vocab)))) as [term ->];
      [lia|by eexists].
  - destruct (Z.ltb_spec i 0); [lia|].
    destruct (lookup_lt_is_Some_2 vocab (Z.to_nat i)) as [term ->];
      [lia|by eexists].
Qed.

Lemma list_getitem_out_of_range vocab i :
  ¬ in_range (length vocab) i →
  Server.list_getitem vocab i = Raise IndexError.
Proof.
  unfold in_range, Server.list_getitem. cbv zeta. intros Hi.
  destruct (Z.ltb_spec i 0).
  - destruct (Z.ltb_spec (i + Z.of_nat (length vocab)) 0); [done|]. lia.
  - destruct (Z.ltb_spec i 0); [lia|].
    rewrite lookup_ge_None_2; [done|]. lia.
Qed.

Lemma list_getitem_raise vocab i e :
  Server.list_getitem vocab i = Raise e →
  e = IndexError ∧ ¬ in_range (length vocab) i.
Proof.
  intros Hraise. destruct (decide (in_range (length vocab) i)) as [Hin|Hout].
  - destruct (list_getitem_in_range _ _ Hin) as [term Hterm]. congruence.
  - rewrite (list_getitem_out_of_range _ _ Hout) in Hraise.
    by injection Hraise as <-.
Qed.

(** X11. [tokenify_anchors] on groups of integers returns exactly when every
    integer indexes the vocabulary, from the front or, when negative, from
    the end; otherwise it raises [IndexError]. *)
Theorem tokenify_anchors_bounds
    (dataset : Server.Dataset) (groups : list (list Z)) :
  let n := length (Server.vocab dataset) in
  (Forall (Forall (in_range n)) groups
   ↔ ∃ tokens, Server.tokenify_anchors dataset (int_tuples groups)
               = Ok tokens)
  ∧ (∀ e, Server.tokenify_anchors dataset (int_tuples groups) = Raise e →
          e = IndexError)
  ∧ (∀ i, (- Z.of_nat n ≤ i < 0)%Z →
          Server.tokenify_anchors dataset (int_tuples [[i]])
          = Server.tokenify_anchors dataset
              (int_tuples [[(i + Z.of_nat n)%Z]])).
Proof.
  intros n. unfold Server.tokenify_anchors, int_tuples.
  cbn [Server.iterate mbind result_bind]. split; [split|split].
  - intros Hall. apply mapM_total. apply Forall_fmap.
    eapply Forall_impl; [done|]. intros group Hgroup. cbn.
    apply mapM_total. apply Forall_fmap.
    eapply Forall_impl; [done|]. intros i Hi. cbn.
    by apply list_getitem_in_range.
  - intros [tokens Htok%mapM_Ok_inv]. apply Forall2_fmap_l in Htok.
    apply Forall_forall. intros group Hgroup.
    apply list_elem_of_lookup in Hgroup as [k Hk].
    destruct (Forall2_lookup_l _ _ _ _ _ Htok Hk) as (toks & _ & Hg).
    cbn in Hg. apply mapM_Ok_inv, Forall2_fmap_l in Hg.
    apply Forall_forall. intros i Hi.
    apply list_elem_of_lookup in Hi as [m Hm].
    destruct (Forall2_lookup_l _ _ _ _ _ Hg Hm) as (term & _ & Hterm).
    cbn in Hterm.
    destruct (decide (in_range n i)) as [|Hout]; [done|].
    by rewrite (list_getitem_out_of_range _ _ Hout) in Hterm.
  - intros e (x & Hx & Hraise)%mapM_Raise_inv.
    apply list_elem_of_fmap in Hx as (group & -> & _). cbn in Hraise.
    apply mapM_Raise_inv in Hraise as (y & Hy & Hraise).
    apply list_elem_of_fmap in Hy as (i & -> & _). cbn in Hraise.
    by apply list_getitem_raise in Hraise as [-> _].
  - intros i Hi. cbn. unfold Server.list_getitem. cbv zeta. fold n.
    assert ((i <? 0)%Z = true) as Hneg by (apply Z.ltb_lt; lia).
    assert ((i + Z.of_nat n <? 0)%Z = false) as Hpos
      by (apply Z.ltb_ge; lia).
    by rewrite Hneg, !Hpos.
Qed.

Lemma tokenify_anchors_bounds_witness :
  let dataset := {| Server.vocab := [py "a"; py "b"; py "c"] |} in
  (- 3 ≤ -1 < 0)%Z
  ∧ Server.tokenify_anchors dataset (int_tuples [[(-1)%Z]])
    = Server.tokenify_anchors dataset (int_tuples [[2%Z]])
  ∧ Server.tokenify_anchors dataset (int_tuples [[2%Z]]) = Ok [[py "c"]]
  ∧ Server.tokenify_anchors dataset (int_tuples [[3%Z]]) = Raise IndexError.
Proof.
  intros dataset.
  assert (- 3 ≤ -1 < 0)%Z as Hi by lia.
  split; [exact Hi|]. split; [|by split].
  exact (proj2 (proj2 (tokenify_anchors_bounds dataset [])) (-1)%Z Hi).
Defined.

(** * Further properties of the requests *)

Lemma reindex_indexed dataset anchors :
  indexed anchors = true →
  Server.reindex_anchors dataset anchors = Ok anchors.
Proof.
  unfold Server.reindex_anchors.
  induction anchors as [i|s|l IH|l IH] using pyval_nested_ind;
    [done..|].
  cbn [indexed]. intros Hall. rewrite tuplize_tuple.
  assert (mapM (Util.tuplize (λ t, Server.convert_anchor dataset t)) l
          = Ok l) as ->; [|done].
  apply mapM_Ok. rewrite forallb_forall in Hall. clear -IH Hall.
  induction IH as [|x l Hx _ IHl]; constructor.
  - apply Hx, Hall. by left.
  - apply IHl. intros y Hy. apply Hall. by right.
Qed.

Lemma list_getitem_elem vocab i term :
  Server.list_getitem vocab i = Ok term → term ∈ vocab.
Proof.
  unfold Server.list_getitem. cbv zeta.
  destruct (_ <? 0)%Z; [done|].
  destruct (vocab !! _) as [t|] eqn:Ht; [|done].
  intros [= <-]. by eapply list_elem_of_lookup_2.
Qed.

Lemma tokenify_anchors_elem dataset anchors tokens :
  Server.tokenify_anchors dataset anchors = Ok tokens →
  Forall (Forall (λ term, term ∈ Server.vocab dataset)) tokens.
Proof.
  unfold Server.tokenify_anchors.
  destruct (Server.iterate anchors) as [l|e]; [|done]. cbn.
  intros Hall%mapM_Ok_inv.
  induction Hall as [|anchor group l tokens Hg _ IH]; constructor; [|done].
  destruct (Server.iterate anchor) as [l'|e]; [|done]. cbn in Hg.
  apply mapM_Ok_inv in Hg. clear -Hg.
  induction Hg as [|x term l' group Hx _ IH]; constructor; [|done].
  destruct x; try done. by eapply list_getitem_elem.
Qed.

Section request_more.

Context {W : Type} (wle : relation W).
Variable get_newsgroups : Server.Dataset.
Variable json_loads : str → result pyval.
Variable argsort : list W → list nat.
Variable gramschmidt_anchors : Server.Dataset → nat → nat → pyval.
Variable recover_topics : Server.Dataset → pyval → Server.ndarray W.

Abbreviation the_topic_request :=
  (Server.topic_request get_newsgroups json_loads argsort
     gramschmidt_anchors recover_topics).
Abbreviation the_requested_anchors :=
  (Server.requested_anchors get_newsgroups json_loads gramschmidt_anchors).

(** The request is a function of the reindexed anchors and of whether
    anchors were supplied. *)
Lemma topic_request_reindexed raw1 raw2 requested1 requested2 :
  the_requested_anchors (Some raw1) = Ok requested1 →
  the_requested_anchors (Some raw2) = Ok requested2 →
  Server.reindex_anchors get_newsgroups requested1
  = Server.reindex_anchors get_newsgroups requested2 →
  the_topic_request (Some raw1) = the_topic_request (Some raw2).
Proof.
  intros H1 H2 Hre. unfold Server.topic_request.
  rewrite H1, H2. cbn. by rewrite Hre.
Qed.

Lemma requested_int_lists raw groups :
  json_loads raw = Ok (int_lists groups) →
  the_requested_anchors (Some raw) = Ok (int_tuples groups).
Proof.
  intros Hjson. unfold Server.requested_anchors. rewrite Hjson.
  change (Util.tuplize Ok (int_lists groups) = Ok (int_tuples groups)).
  unfold int_lists, int_tuples. rewrite tuplize_seq.
  assert (∀ group, mapM (Util.tuplize Ok) (map PInt group)
                   = Ok (map PInt group)) as Hgroup.
  { induction group as [|i group IH]; [done|].
    cbn [map mapM Util.tuplize]. cbn. by rewrite IH. }
  enough (mapM (Util.tuplize Ok) (map (λ group, PList (map PInt group)) groups)
          = Ok (map (λ group, PTuple (map PInt group)) groups)) as ->
    by done.
  clear Hjson. induction groups as [|group groups IH]; [done|].
  cbn [map mapM]. rewrite tuplize_seq, Hgroup. cbn. by rewrite IH.
Qed.

Lemma indexed_int_tuples groups : indexed (int_tuples groups) = true.
Proof.
  unfold int_tuples. cbn [indexed]. apply forallb_forall.
  intros x (group & <- & _)%in_map_iff. cbn [indexed].
  apply forallb_forall. by intros y (i & <- & _)%in_map_iff.
Qed.

End request_more.



(** X13. Anchors may be sent as terms or as the positions of the terms: the
    two requests get the same answer. *)
Theorem topic_request_terms_or_indices {W : Type}
    (get_newsgroups : Server.Dataset) (json_loads : str → result pyval)
    (argsort : list W → list nat)
    (gramschmidt_anchors : Server.Dataset → nat → nat → pyval)
    (recover_topics : Server.Dataset → pyval → Server.ndarray W)
    (raw_terms raw_indices : str)
    (groups : list (list str)) (indices : list (list Z)) :
  json_loads raw_terms = Ok (token_anchors groups) →
  json_loads raw_indices = Ok (int_lists indices) →
  Server.reindex_anchors get_newsgroups (token_anchors groups)
    = Ok (int_tuples indices) →
  Server.topic_request get_newsgroups json_loads argsort gramschmidt_anchors
    recover_topics (Some raw_terms)
  = Server.topic_request get_newsgroups json_loads argsort
      gramschmidt_anchors recover_topics (Some raw_indices).
Proof.
  intros Hterms Hindices Hre.
  eapply topic_request_reindexed.
  - cbn. rewrite Hterms. cbn. apply tuplize_token_anchors.
  - by apply requested_int_lists.
  - rewrite reindex_token_tuples, Hre.
    symmetry. apply reindex_indexed, indexed_int_tuples.
Qed.

(** X14. The answer to the request for the base anchors is the [anchors] field
    of the answer to a topic request without anchors, when the default
    anchors are indices already. *)
Theorem base_anchors_agree {W : Type}
    (get_newsgroups : Server.Dataset) (json_loads : str → result pyval)
    (argsort : list W → list nat)
    (gramschmidt_anchors : Server.Dataset → nat → nat → pyval)
    (recover_topics : Server.Dataset → pyval → Server.ndarray W)
    (r : Server.response) :
  indexed (Server.default_anchors get_newsgroups gramschmidt_anchors) = true →
  Server.topic_request get_newsgroups json_loads argsort gramschmidt_anchors
    recover_topics None = Ok r →
  ∃ tokens,
    Server.get_base_anchors get_newsgroups gramschmidt_anchors = Ok tokens
    ∧ Server.anchors r = Some tokens.
Proof.
  intros Hindexed
    (requested & anchors & Hreq & Hre & _ & tokens & Htok & Hr)
    %topic_request_inv.
  injection Hreq as <-.
  rewrite (reindex_indexed _ _ Hindexed) in Hre. injection Hre as <-.
  by exists tokens.
Qed.

(** X15. Every term in an answer is a term of the vocabulary that the request
    for the vocabulary returns: those of the topic summaries and those of
    the anchors. *)
Theorem topic_request_terms_in_vocab {W : Type}
    (get_newsgroups : Server.Dataset) (json_loads : str → result pyval)
    (argsort : list W → list nat)
    (gramschmidt_anchors : Server.Dataset → nat → nat → pyval)
    (recover_topics : Server.Dataset → pyval → Server.ndarray W)
    (raw_anchors : option str) (r : Server.response) :
  Server.topic_request get_newsgroups json_loads argsort gramschmidt_anchors
    recover_topics raw_anchors = Ok r →
  Forall (Forall (λ term, term ∈ Server.get_vocab get_newsgroups))
    (Server.topics r)
  ∧ (∀ tokens, Server.anchors r = Some tokens →
       Forall (Forall (λ term, term ∈ Server.get_vocab get_newsgroups))
         tokens).
Proof.
  intros (requested & anchors & Hreq & Hre & Hsum & Hanchors)
    %topic_request_inv.
  unfold Server.get_vocab. cbv zeta. split.
  - apply mapM_Ok_inv in Hsum.
    induction Hsum as [|k summary ks summaries Hk _ IH]; constructor; [|done].
    apply mapM_Ok_inv in Hk. clear -Hk.
    induction Hk as [|word term words summary Hw _ IH]; constructor; [|done].
    by eapply list_getitem_elem.
  - intros tokens Htokens. destruct raw_anchors as [raw|].
    + congruence.
    + destruct Hanchors as (tokens' & Htok & Hr).
      rewrite Hr in Htokens. injection Htokens as <-.
      by eapply tokenify_anchors_elem.
Qed.

(** X16. With at most ten terms in the vocabulary every summary lists every
    term once. *)
Theorem top_words_small_vocabulary {W : Type} (wle : relation W)
    (argsort : list W → list nat) (topics : Server.ndarray W) (k : nat) :
  argsort_spec wle argsort →
  (Server.shape0 topics ≤ 10)%nat →
  Server.top_words argsort topics k ≡ₚ seq 0 (Server.shape0 topics).
Proof.
  intros Hargsort Hsmall.
  destruct (Hargsort (Server.column topics k)) as [Hperm _].
  unfold Server.top_words, Server.reversed, Server.last_n.
  rewrite <- Permutation_rev.
  rewrite (Permutation_length Hperm), length_seq, length_column.
  replace (Server.shape0 topics - 10)%nat with 0%nat by lia.
  rewrite drop_0, Hperm. by rewrite length_column.
Qed.

Lemma topic_request_terms_or_indices_witness :
  let topic_request :=
    Server.topic_request Demo.dataset demo_json_loads_both Demo.argsort
      Demo.gramschmidt_anchors Demo.recover_topics in
  Server.reindex_anchors Demo.dataset
    (token_anchors [[py "a"]; [py "c"; py "b"]])
    = Ok (int_tuples [[0%Z]; [2%Z; 1%Z]])
  ∧ topic_request (Some (py "[[a],[c,b]]"))
    = topic_request (Some (py "[[0],[2,1]]")).
Proof.
  intros topic_request.
  assert (Server.reindex_anchors Demo.dataset
            (token_anchors [[py "a"]; [py "c"; py "b"]])
          = Ok (int_tuples [[0%Z]; [2%Z; 1%Z]])) as Hre by reflexivity.
  split; [exact Hre|].
  exact (topic_request_terms_or_indices Demo.dataset demo_json_loads_both
           Demo.argsort Demo.gramschmidt_anchors Demo.recover_topics
           (py "[[a],[c,b]]") (py "[[0],[2,1]]")
           [[py "a"]; [py "c"; py "b"]] [[0%Z]; [2%Z; 1%Z]]
           eq_refl eq_refl Hre).
Defined.

Lemma base_anchors_agree_witness :
  let r := {| Server.topics := [[py "c"; py "b"; py "a"];
                                [py "a"; py "c"; py "b"]];
              Server.anchors := Some [[py "a"]; [py "c"]] |} in
  Demo.topic_request None = Ok r
  ∧ ∃ tokens,
      Server.get_base_anchors Demo.dataset Demo.gramschmidt_anchors
        = Ok tokens
      ∧ Server.anchors r = Some tokens.
Proof.
  intros r.
  assert (Demo.topic_request None = Ok r) as Hr by (vm_compute; reflexivity).
  split; [exact Hr|].
  exact (base_anchors_agree Demo.dataset Demo.json_loads Demo.argsort
           Demo.gramschmidt_anchors Demo.recover_topics r eq_refl Hr).
Defined.

Lemma topic_request_terms_in_vocab_witness :
  let r := {| Server.topics := [[py "c"; py "b"; py "a"];
                                [py "a"; py "c"; py "b"]];
              Server.anchors := Some [[py "a"]; [py "c"]] |} in
  Demo.topic_request None = Ok r
  ∧ Forall (Forall (λ term, term ∈ Server.get_vocab Demo.dataset))
      (Server.topics r).
Proof.
  intros r.
  assert (Demo.topic_request None = Ok r) as Hr by (vm_compute; reflexivity).
  split; [exact Hr|].
  exact (proj1 (topic_request_terms_in_vocab Demo.dataset Demo.json_loads
                  Demo.argsort Demo.gramschmidt_anchors Demo.recover_topics
                  None r Hr)).
Defined.

Lemma top_words_small_vocabulary_witness :
  let topics := Demo.recover_topics Demo.dataset (index_anchors [[0%nat]]) in
  argsort_spec Z.le Demo.argsort
  ∧ (Server.shape0 topics ≤ 10)%nat
  ∧ Server.top_words Demo.argsort topics 0 ≡ₚ seq 0 (Server.shape0 topics).
Proof.
  intros topics.
  assert (Server.shape0 topics ≤ 10)%nat as Hsmall by (vm_compute; lia).
  split; [exact demo_argsort_spec|]. split; [exact Hsmall|].
  exact (top_words_small_vocabulary Z.le Demo.argsort topics 0
           demo_argsort_spec Hsmall).
Defined.
